(** * A shallow embedding of [task_llm.py]

    The program scrapes company web pages, flattens them to text, asks a
    generative model six questions about the text and, when the answer
    carries the marker [Information Not Available], walks through
    keyword-matched follow-up links.  The embedding below follows the
    source function by function; network, model and file-system effects are
    threaded through an explicit [world]. *)

From Stdlib Require Import Ascii String.
From Stdlib Require Import List NArith Bool Lia Arith Permutation.
Import ListNotations.

(** ** Python strings

    A Python [str] is a sequence of Unicode code points.  Code points are
    kept as [N], so nothing below is restricted to ASCII. *)

Module PyStr.

Definition char := N.
Definition str := list char.

Fixpoint lit (s : string) : str :=
  match s with
  | EmptyString => []
  | String c r => N_of_ascii c :: lit r
  end.
Arguments lit : simpl never.

Definition str_eq_dec : forall a b : str, {a = b} + {a <> b} :=
  list_eq_dec N.eq_dec.

Definition str_eqb (a b : str) : bool :=
  if str_eq_dec a b then true else false.

Definition NL : char := 10%N.
Definition SPACE : char := 32%N.
Definition DQUOTE : char := 34%N.
Definition SQUOTE : char := 39%N.
Definition LPAREN : char := 40%N.
Definition RPAREN : char := 41%N.
Definition LT : char := 60%N.
Definition GT : char := 62%N.

(** [str.startswith] *)
Fixpoint startswith (s prefix : str) {struct prefix} : bool :=
  match prefix, s with
  | [], _ => true
  | _ :: _, [] => false
  | p :: ps, c :: cs => N.eqb p c && startswith cs ps
  end.

(** The operator [sub in s] on strings. *)
Fixpoint contains (sub s : str) : bool :=
  startswith s sub ||
  match s with
  | [] => false
  | _ :: cs => contains sub cs
  end.

(** [str.isspace] on one code point: the table CPython uses both for
    [str.strip()] and for the regular-expression class [\s] on [str]
    patterns. *)
Definition isspace (c : char) : bool :=
  ((9 <=? c) && (c <=? 13) ||
   (28 <=? c) && (c <=? 32) ||
   (c =? 133) || (c =? 160) || (c =? 5760) ||
   (8192 <=? c) && (c <=? 8202) ||
   (c =? 8232) || (c =? 8233) || (c =? 8239) || (c =? 8287) ||
   (c =? 12288))%N.

Fixpoint lstrip (s : str) : str :=
  match s with
  | [] => []
  | c :: r => if isspace c then lstrip r else s
  end.

Definition rstrip (s : str) : str := rev (lstrip (rev s)).

(** [s.strip()] with no argument. *)
Definition strip (s : str) : str := rstrip (lstrip s).

(** [s.replace(a, b)] for one-character [a] and [b]. *)
Definition replace_char (a b : char) (s : str) : str :=
  map (fun c => if N.eqb c a then b else c) s.

(** [re.sub(r'\s+', ' ', s)]: every maximal run of whitespace becomes one
    space.  [in_run] tells whether the previous character was whitespace,
    that is, whether the current match of [\s+] is still being extended. *)
Fixpoint sub_ws_from (in_run : bool) (s : str) : str :=
  match s with
  | [] => []
  | c :: r =>
      if isspace c
      then (if in_run then sub_ws_from true r else SPACE :: sub_ws_from true r)
      else c :: sub_ws_from false r
  end.

Definition re_sub_ws (s : str) : str := sub_ws_from false s.

(** [sep.join(parts)] *)
Fixpoint join (sep : str) (parts : list str) : str :=
  match parts with
  | [] => []
  | [p] => p
  | p :: ps => p ++ sep ++ join sep ps
  end.

End PyStr.
Export PyStr.

(** ** [clean_text] *)

Definition clean_text (text : str) : str :=
  strip (re_sub_ws (replace_char NL SPACE (replace_char DQUOTE SQUOTE text))).

(** ** The raw-link scan of [fetch_content]

    [re.findall] with the pattern: [http], an optional [s], [://], then one
    or more characters that are neither whitespace, a quote of either kind,
    nor an angle bracket. *)

Module UrlRegex.

(** The character class after the scheme: anything except whitespace, the
    two quotes and the angle brackets. *)
Definition url_char (c : char) : bool :=
  negb (isspace c || N.eqb c DQUOTE || N.eqb c SQUOTE || N.eqb c LT || N.eqb c GT).

Fixpoint take_while (p : char -> bool) (s : str) : str :=
  match s with
  | [] => []
  | c :: r => if p c then c :: take_while p r else []
  end.

(** The match that starts exactly at the head of [s], if there is one. *)
Definition match_here (s : str) : option str :=
  let try scheme :=
    if startswith s scheme
    then match take_while url_char (skipn (length scheme) s) with
         | [] => None
         | body => Some (scheme ++ body)
         end
    else None in
  match try (lit "https://") with
  | Some m => Some m
  | None => try (lit "http://")
  end.

(** Leftmost, non-overlapping matches.  [skip] counts the characters still
    covered by the previous match. *)
Fixpoint findall_from (skip : nat) (s : str) : list str :=
  match s with
  | [] => []
  | _ :: r =>
      match skip with
      | S k => findall_from k r
      | O =>
          match match_here s with
          | Some m => m :: findall_from (length m - 1) r
          | None => findall_from 0 r
          end
      end
  end.

Definition findall_urls (text : str) : list str := findall_from 0 text.

End UrlRegex.
Export UrlRegex.

(** ** Parsed documents

    What [BeautifulSoup(text, 'html.parser')] builds: a forest of tags and
    strings.  [NavigableString] stands for the string classes that
    [get_text] collects, [HiddenString] for those it skips (comments,
    doctypes, processing instructions and the like). *)

Module Soup.

#[local] Unset Elimination Schemes.
Inductive node : Type :=
| NavigableString (s : str)
| HiddenString (s : str)
| Tag (name : str) (attrs : list (str * str)) (contents : list node).
#[local] Set Elimination Schemes.

Definition document := list node.

(** [tag.attrs.get(key)] *)
Fixpoint get_attr (key : str) (attrs : list (str * str)) : option str :=
  match attrs with
  | [] => None
  | (k, v) :: r => if str_eqb k key then Some v else get_attr key r
  end.

Definition name_in (names : list str) (name : str) : bool :=
  existsb (str_eqb name) names.

(** [soup.find_all('a', href=True)], reduced to what the program reads from
    each result: the value [a['href']], in document order. *)
Fixpoint anchor_hrefs_node (n : node) : list str :=
  match n with
  | Tag name attrs contents =>
      (if str_eqb name (lit "a")
       then match get_attr (lit "href") attrs with
            | Some h => [h]
            | None => []
            end
       else [])
      ++ flat_map anchor_hrefs_node contents
  | _ => []
  end.

Definition anchor_hrefs (d : document) : list str :=
  flat_map anchor_hrefs_node d.

(** [for tag in soup(names): tag.decompose()] *)
Fixpoint decompose_node (names : list str) (n : node) : list node :=
  match n with
  | Tag name attrs contents =>
      if name_in names name then []
      else [Tag name attrs (flat_map (decompose_node names) contents)]
  | _ => [n]
  end.

Definition decompose_all (names : list str) (d : document) : document :=
  flat_map (decompose_node names) d.

(** The string [f" ({a['href']})"]. *)
Definition link_note (href : str) : str :=
  lit " (" ++ href ++ lit ")".

(** [for a in soup.find_all('a', href=True): a.insert_after(...)]: the
    result set is computed before the first insertion, so inserted strings
    are never visited; each match gets one new string as its next
    sibling. *)
Fixpoint insert_after_node (n : node) : list node :=
  match n with
  | Tag name attrs contents =>
      let n' := Tag name attrs (flat_map insert_after_node contents) in
      if str_eqb name (lit "a")
      then match get_attr (lit "href") attrs with
           | Some h => [n'; NavigableString (link_note h)]
           | None => [n']
           end
      else [n']
  | _ => [n]
  end.

Definition insert_after_links (d : document) : document :=
  flat_map insert_after_node d.

(** The strings [get_text] walks over, in document order. *)
Fixpoint strings_node (n : node) : list str :=
  match n with
  | NavigableString s => [s]
  | HiddenString _ => []
  | Tag _ _ contents => flat_map strings_node contents
  end.

Definition nonempty (s : str) : bool :=
  match s with [] => false | _ => true end.

(** With [strip=True] every string is stripped and dropped when nothing is
    left. *)
Definition stripped_strings (d : document) : list str :=
  filter nonempty (map strip (flat_map strings_node d)).

(** [soup.get_text(separator=' ', strip=True)] *)
Definition get_text (d : document) : str :=
  join [SPACE] (stripped_strings d).

End Soup.
Export Soup.

(** ** Exceptions *)

Inductive request_failure : Type :=
| ConnectionError
| Timeout
| HTTPError (status_code : N)
| InvalidURL.

Inductive exn : Type :=
| RequestException (k : request_failure)
| PermissionDenied
| ResourceExhausted
| ServiceUnavailable
| ValueError
| LocationParseError
| OtherException (tag : N).

(** [isinstance(e, requests.RequestException)].  [LocationParseError] is
    urllib3's: a [ValueError], and not a [RequestException]. *)
Definition is_RequestException (e : exn) : bool :=
  match e with RequestException _ => true | _ => false end.

(** [isinstance(e, Exception)]: every exception modelled here is an
    ordinary one; interpreter signals such as [KeyboardInterrupt] are not
    failures of a call and are left out. *)
Definition is_Exception (e : exn) : bool := true.

Inductive result (A : Type) : Type :=
| Ok (a : A)
| Raise (e : exn).
Arguments Ok {A} a.
Arguments Raise {A} e.

(** ** The outside world *)

Record http_response : Type := {
  status_code : N;
  text : str
}.

(** What [model.generate_content] hands back: an object with a truth value
    and a [text] property whose getter may itself raise. *)
Record gen_response : Type := {
  truthy : bool;
  response_text : result str
}.

(** One element of [output_data]: a dict with the two keys
    ['Company URL'] and ['Extracted Information']. *)
Record row : Type := {
  Company_URL : str;
  Extracted_Information : str
}.

Inductive event : Type :=
| EvGet (url : str) (outcome : result http_response)
| EvGenerate (prompt : str) (outcome : result gen_response)
| EvToCsv (filename : str) (rows : list row) (outcome : option exn).

(** The parts of the run that the program does not decide.  The three
    oracles see the events so far, so the same request may be answered
    differently at different times.  A request may raise any exception, not
    only those of the [requests] library.  [html_parser], [urljoin] and
    [lower] are the library functions of the same names; the first two may
    raise.  [set_order] is the order in which a Python [set] with the given
    elements is enumerated. *)
Record environment : Type := {
  requests_get_oracle : list event -> str -> result http_response;
  generate_content_oracle : list event -> str -> result gen_response;
  to_csv_oracle : list event -> list row -> option exn;
  html_parser : str -> result document;
  urljoin : str -> str -> result str;
  lower : str -> str;
  set_order : list str -> list str
}.

(** Parsed documents live in a store and are passed around by reference,
    as Python objects are. *)
Definition soup_ref := nat.

Record world : Type := {
  heap : list document;
  trace : list event
}.

Definition M (A : Type) : Type := world -> result A * world.

Definition ret {A} (a : A) : M A := fun w => (Ok a, w).

Definition raise {A} (e : exn) : M A := fun w => (Raise e, w).

(** A call that touches nothing and returns or raises. *)
Definition lift {A} (r : result A) : M A := fun w => (r, w).

Definition bind {A B} (m : M A) (k : A -> M B) : M B :=
  fun w =>
    match m w with
    | (Ok a, w') => k a w'
    | (Raise e, w') => (Raise e, w')
    end.

(** [try: body / except C: handler], where [catches] is [isinstance(_, C)].
    Effects of [body] up to the raise are kept. *)
Definition try_except {A} (catches : exn -> bool) (body handler : M A) : M A :=
  fun w =>
    match body w with
    | (Ok a, w') => (Ok a, w')
    | (Raise e, w') => if catches e then handler w' else (Raise e, w')
    end.

Declare Scope py_scope.
Delimit Scope py_scope with py.
Notation "x <- m ;; k" := (bind m (fun x => k))
  (at level 61, m at next level, right associativity) : py_scope.
Notation "m ;;; k" := (bind m (fun _ => k))
  (at level 61, right associativity) : py_scope.
Open Scope py_scope.

Definition emit (e : event) : M unit :=
  fun w => (Ok tt, {| heap := heap w; trace := trace w ++ [e] |}).

Definition get_trace : M (list event) := fun w => (Ok (trace w), w).

(** Allocation of a fresh document object. *)
Definition new_soup (d : document) : M soup_ref :=
  fun w => (Ok (List.length (heap w)),
            {| heap := heap w ++ [d]; trace := trace w |}).

Definition read_soup (r : soup_ref) : M document :=
  fun w => (Ok (nth r (heap w) []), w).

Fixpoint set_nth {A} (i : nat) (x : A) (l : list A) : list A :=
  match l, i with
  | [], _ => []
  | _ :: t, O => x :: t
  | h :: t, S j => h :: set_nth j x t
  end.

(** In-place mutation of the object behind a reference. *)
Definition write_soup (r : soup_ref) (d : document) : M unit :=
  fun w => (Ok tt, {| heap := set_nth r d (heap w); trace := trace w |}).

(** ** Constants of the program *)

Definition URLS : list str :=
  [ lit "https://www.apple.com";
    lit "https://www.toyota-global.com";
    lit "https://www.jpmorganchase.com";
    lit "https://www.pfizer.com";
    lit "https://www.thewaltdisneycompany.com";
    lit "https://www.shell.com";
    lit "https://www.siemens.com";
    lit "https://www.samsung.com/in/";
    lit "https://www.nike.com" ].

Definition COMPANY_KEYWORDS : list (str * list str) :=
  [ (lit "https://www.apple.com",
     [lit "business"; lit "newsroom"; lit "compliance"]);
    (lit "https://www.toyota-global.com",
     [lit "executives"; lit "global-vision"; lit "company";
      lit "financial-results"; lit "profile"]);
    (lit "https://www.jpmorganchase.com",
     [lit "leadership"; lit "awards-and-recognition"; lit "our-history";
      lit "suppliers"; lit "business-principles"]);
    (lit "https://www.pfizer.com",
     [lit "product-list"; lit "executives"; lit "history"; lit "purpose";
      lit "global-impact"]);
    (lit "https://www.thewaltdisneycompany.com",
     [lit "our-businesses"; lit "news"; lit "social-impact"; lit "about"]);
    (lit "https://www.shell.com",
     [lit "who-we-are"; lit "our-values"; lit "our-history";
      lit "news-and-insights"]);
    (lit "https://www.siemens.com",
     [lit "products.html"; lit "management.html";
      lit "telegraphy-and-telex.html";
      lit "system-and-method-for-robotic-picking.html";
      lit "technology-to-transform-the-everyday.html"]);
    (lit "https://www.samsung.com/in/",
     [lit "company-info"; lit "business-area"; lit "brand-identity";
      lit "environment"]);
    (lit "https://www.nike.com",
     [lit "about"; lit "investors"; lit "sustainability"]) ].

(** [d.get(key, default)] *)
Fixpoint dict_get {V} (d : list (str * V)) (key : str) (default : V) : V :=
  match d with
  | [] => default
  | (k, v) :: r => if str_eqb k key then v else dict_get r key default
  end.

Definition MARKER : str := lit "Information Not Available".

Definition FAILED : str := lit "Failed to fetch content.".

Definition PROMPT_HEAD : str :=
  join [NL]
    [ lit "";
      lit "    Extract the following detailed company information from the provided text:";
      lit "    ";
      lit "    1. What is the company's mission statement or core values?";
      lit "    2. What products or services does the company offer?";
      lit "    3. When was the company founded, and who were the founders?";
      lit "    4. Where is the company's headquarters located?";
      lit "    5. Who are the key executives or leadership team members?";
      lit "    6. Has the company received any notable awards or recognitions?";
      lit "    ";
      lit "    Provide the output in a CSV-compatible format, ensuring each question is clearly answered.";
      lit "    ";
      lit "    Text: " ].

Definition PROMPT_TAIL : str := NL :: lit "    ".

Definition make_prompt (cleaned_text : str) : str :=
  PROMPT_HEAD ++ cleaned_text ++ PROMPT_TAIL.

(** ** Python sets of strings

    A set is kept as the list of its distinct elements; the order in which
    Python enumerates it is the environment's [set_order]. *)

Definition set_add (x : str) (s : list str) : list str :=
  if in_dec str_eq_dec x s then s else s ++ [x].

(** [s.update(xs)]; with [s = []] this is [set(xs)]. *)
Definition set_update (s xs : list str) : list str :=
  fold_left (fun acc x => set_add x acc) xs s.

(** A comprehension over [l] whose element expression may raise: the
    elements are computed in order, and the first raise ends it. *)
Fixpoint map_result {A B} (f : A -> result B) (l : list A) : result (list B) :=
  match l with
  | [] => Ok []
  | x :: r =>
      match f x with
      | Raise e => Raise e
      | Ok y =>
          match map_result f r with
          | Ok ys => Ok (y :: ys)
          | Raise e => Raise e
          end
      end
  end.

(** ** The program *)

Section Program.

Variable E : environment.

(** [requests.get(url, headers=..., timeout=10)]: returns a response or
    raises. *)
Definition requests_get (url : str) : M http_response :=
  h <- get_trace ;;
  let outcome := requests_get_oracle E h url in
  emit (EvGet url outcome) ;;;
  match outcome with
  | Ok resp => ret resp
  | Raise e => raise e
  end.

(** [response.raise_for_status()] *)
Definition raise_for_status (resp : http_response) : M unit :=
  if ((400 <=? status_code resp) && (status_code resp <? 600))%N
  then raise (RequestException (HTTPError (status_code resp)))
  else ret tt.

(** [fetch_content] returns the pair [(None, None)] or a pair of a document
    and a list; the two components are absent together, so the pair is
    kept as one optional value.  Only the request and the status check are
    inside the [try]; the parser runs after it. *)
Definition fetch_content (url : str) : M (option (soup_ref * list str)) :=
  r <- try_except is_RequestException
         (response <- requests_get url ;;
          raise_for_status response ;;;
          ret (Some response))
         (ret None) ;;
  match r with
  | None => ret None
  | Some response =>
      d <- lift (html_parser E (text response)) ;;
      soup <- new_soup d ;;
      let js_links := findall_urls (text response) in
      ret (Some (soup, js_links))
  end.

Definition extract_text (soup : soup_ref) : M str :=
  d <- read_soup soup ;;
  write_soup soup (decompose_all [lit "script"; lit "style"] d) ;;;
  d <- read_soup soup ;;
  write_soup soup (insert_after_links d) ;;;
  d <- read_soup soup ;;
  ret (get_text d).

(** [model.generate_content(prompt)] *)
Definition generate_content (prompt : str) : M gen_response :=
  h <- get_trace ;;
  let outcome := generate_content_oracle E h prompt in
  emit (EvGenerate prompt outcome) ;;;
  match outcome with
  | Ok r => ret r
  | Raise e => raise e
  end.

Definition call_gemini_api (cleaned_text : str) : M str :=
  let prompt := make_prompt cleaned_text in
  try_except is_Exception
    (response <- generate_content prompt ;;
     if truthy response
     then match response_text response with
          | Ok t => ret t
          | Raise e => raise e
          end
     else ret [])
    (ret []).

Definition any_keyword_in (keywords : list str) (s : str) : bool :=
  existsb (fun k => contains k s) keywords.

Definition extract_relevant_links
    (soup : soup_ref) (js_links : list str) (base_url url : str)
    : M (list str) :=
  let keywords := dict_get COMPANY_KEYWORDS url [] in
  d <- read_soup soup ;;
  joined <- lift (map_result (urljoin E base_url)
                    (filter (fun href => any_keyword_in keywords (lower E href))
                       (anchor_hrefs d))) ;;
  let links := set_update [] joined in
  let links :=
    set_update links
      (filter (fun link => any_keyword_in keywords (lower E link)) js_links) in
  ret (set_order E links).

(** The [for link in ...] loop of [get_company_information], with its
    [break]. *)
Fixpoint expansion_loop (links : list str) (cleaned_text extracted_info : str)
    : M str :=
  match links with
  | [] => ret extracted_info
  | link :: rest =>
      r <- fetch_content link ;;
      match r with
      | None => expansion_loop rest cleaned_text extracted_info
      | Some (additional_soup, _) =>
          t <- extract_text additional_soup ;;
          let cleaned_text := cleaned_text ++ [NL] ++ t in
          extracted_info <- call_gemini_api cleaned_text ;;
          if negb (contains MARKER extracted_info)
          then ret extracted_info
          else expansion_loop rest cleaned_text extracted_info
      end
  end.

Definition get_company_information (url : str) : M str :=
  r <- fetch_content url ;;
  match r with
  | None => ret FAILED
  | Some (soup, js_links) =>
      cleaned_text <- extract_text soup ;;
      extracted_info <- call_gemini_api cleaned_text ;;
      if contains MARKER extracted_info
      then
        links <- extract_relevant_links soup js_links url url ;;
        expansion_loop links cleaned_text extracted_info
      else ret extracted_info
  end.

(** [pd.DataFrame(data).to_csv(filename, ...)] *)
Definition to_csv (data : list row) (filename : str) : M unit :=
  h <- get_trace ;;
  let outcome := to_csv_oracle E h data in
  emit (EvToCsv filename data outcome) ;;;
  match outcome with
  | None => ret tt
  | Some e => raise e
  end.

Definition save_to_csv (data : list row) (filename : str) : M unit :=
  try_except is_Exception (to_csv data filename) (ret tt).

(** The list comprehension of [process_urls]. *)
Fixpoint output_data (urls : list str) : M (list row) :=
  match urls with
  | [] => ret []
  | url :: rest =>
      info <- get_company_information url ;;
      rows <- output_data rest ;;
      ret ({| Company_URL := url;
              Extracted_Information := clean_text info |} :: rows)
  end.


End Program.

(** ** Vocabulary for the statements

    Nothing here is part of the program: these definitions name what the
    statements below talk about. *)

Definition SCRIPT_STYLE : list str := [lit "script"; lit "style"].

(** The tree that [extract_text] leaves behind. *)
Definition normalized (d : document) : document :=
  insert_after_links (decompose_all SCRIPT_STYLE d).

(** The string [extract_text] returns for a document [d]. *)
Definition flattened (d : document) : str := get_text (normalized d).

(** Appending one event to the trace. *)
Definition log (w : world) (e : event) : world :=
  {| heap := heap w; trace := trace w ++ [e] |}.

(** A status for which [raise_for_status] raises. *)
Definition error_status (resp : http_response) : bool :=
  ((400 <=? status_code resp) && (status_code resp <? 600))%N.

(** What becomes of a request in [fetch_content]: the response and its
    parsed body when the fetch succeeds, [None] when the request raises a
    [RequestException] or the status check raises (both are caught), and
    the exception itself when it is one that [fetch_content] lets
    through. *)
Definition fetched (E : environment) (o : result http_response)
    : result (option (http_response * document)) :=
  match o with
  | Raise e => if is_RequestException e then Ok None else Raise e
  | Ok resp =>
      if error_status resp then Ok None
      else match html_parser E (text resp) with
           | Ok d => Ok (Some (resp, d))
           | Raise e => Raise e
           end
  end.

(** The model call failed: the call raised, or reading the text of the
    response raised. *)
Definition model_call_failed (o : result gen_response) : bool :=
  match o with
  | Raise _ => true
  | Ok r => truthy r && match response_text r with Raise _ => true | Ok _ => false end
  end.

(** The text carried by an outcome that did not fail. *)
Definition model_text (o : result gen_response) : str :=
  match o with
  | Ok r => if truthy r
            then match response_text r with Ok t => t | Raise _ => [] end
            else []
  | Raise _ => []
  end.

Definition answer_of (o : result gen_response) : str :=
  if model_call_failed o then [] else model_text o.

(** Projections of a trace. *)
Definition got_urls (evs : list event) : list str :=
  flat_map (fun e => match e with EvGet u _ => [u] | _ => [] end) evs.

Definition prompts (evs : list event) : list str :=
  flat_map (fun e => match e with EvGenerate p _ => [p] | _ => [] end) evs.

Definition answers (evs : list event) : list str :=
  flat_map (fun e => match e with EvGenerate _ o => [answer_of o] | _ => [] end) evs.

(** The parsed pages of the fetches that succeeded. *)
Definition pages_of (E : environment) (evs : list event) : list document :=
  flat_map (fun e => match e with
                     | EvGet _ o => match fetched E o with
                                    | Ok (Some (_, d)) => [d]
                                    | _ => []
                                    end
                     | _ => []
                     end) evs.

(** The normalized texts of the pages fetched successfully. *)
Definition page_texts (E : environment) (evs : list event) : list str :=
  map flattened (pages_of E evs).

(** The texts obtained by appending [pages] one after the other to [t],
    each behind a newline. *)
Fixpoint accumulate (t : str) (pages : list str) : list str :=
  match pages with
  | [] => []
  | p :: ps => (t ++ [NL] ++ p) :: accumulate (t ++ [NL] ++ p) ps
  end.

(** [n] is an element of the document [d] that lies outside every
    [script] and [style] element. *)
Inductive occurs_in (n : node) : document -> Prop :=
| occurs_here : forall d, In n d -> occurs_in n d
| occurs_below : forall name attrs contents d,
    In (Tag name attrs contents) d ->
    name_in SCRIPT_STYLE name = false ->
    occurs_in n contents ->
    occurs_in n d.

(** The text a reader sees inside an element with the given contents. *)
Definition visible_text (contents : list node) : str :=
  get_text (decompose_all SCRIPT_STYLE contents).

(** The hyperlink note follows the visible text of the link in the output
    for [d]. *)
Definition note_follows_text (d : document) (contents : list node) (href : str) : bool :=
  contains (visible_text contents ++ link_note href) (flattened d).

(** No two neighbouring whitespace characters. *)
Fixpoint no_ws_run (s : str) : bool :=
  match s with
  | c1 :: ((c2 :: _) as r) => negb (isspace c1 && isspace c2) && no_ws_run r
  | _ => true
  end.

(** What [re_sub_ws] guarantees about its output when the input holds no
    double quote: whitespace only as single spaces, and no double quote.
    [prev_ws] says whether the character before is whitespace. *)
Fixpoint tidy_from (prev_ws : bool) (s : str) : bool :=
  match s with
  | [] => true
  | c :: r =>
      if isspace c
      then N.eqb c SPACE && negb prev_ws && tidy_from true r
      else negb (N.eqb c DQUOTE) && tidy_from false r
  end.

(** The strings one node contributes to the output. *)
Definition out_strings (n : node) : list str :=
  flat_map strings_node
    (flat_map insert_after_node (decompose_node SCRIPT_STYLE n)).

(** The world after a page was fetched and flattened: the new document is
    stored in its normalized form and the request is on the trace. *)
Definition page_world (w : world) (url : str)
    (o : result http_response) (d : document) : world :=
  {| heap := heap w ++ [normalized d];
     trace := trace w ++ [EvGet url o] |}.

(** The answer to the text [t] asked in world [w], and the world after the
    question. *)
Definition answer_in (E : environment) (w : world) (t : str) : str :=
  answer_of (generate_content_oracle E (trace w) (make_prompt t)).

Definition asked (E : environment) (w : world) (t : str) : world :=
  log w (EvGenerate (make_prompt t)
           (generate_content_oracle E (trace w) (make_prompt t))).

(** What a run of the loop leaves on the trace, and how it ends: with a
    result, or with the exception of a request that [fetch_content] lets
    through. *)
Definition loop_outcome (E : environment) (links : list str) (t i : str) (w : world)
    (r : result str * world) : Prop :=
  exists evs,
    trace (snd r) = trace w ++ evs
    /\ (exists k, got_urls evs = firstn k links)
    /\ prompts evs = map make_prompt (accumulate t (page_texts E evs))
    /\ Forall (fun a => contains MARKER a = true) (removelast (answers evs))
    /\ match fst r with
       | Ok final =>
           final = last (answers evs) i
           /\ (contains MARKER final = true -> got_urls evs = links)
           /\ (links = [] -> snd r = w)
       | Raise e =>
           (exists before link o,
               evs = before ++ [EvGet link o] /\ fetched E o = Raise e)
           /\ Forall (fun a => contains MARKER a = true) (answers evs)
       end.

(** Once a model call has given the empty string nothing more happens in
    the run, and the run returns the empty string. *)
Definition stops_on_empty (w : world) (r : result str * world) : Prop :=
  exists evs,
    trace (snd r) = trace w ++ evs
    /\ forall before p o after,
         evs = before ++ EvGenerate p o :: after ->
         answer_of o = [] ->
         after = [] /\ fst r = Ok [].


(** The names of the elements of a document, at every depth. *)
Fixpoint tag_names_node (n : node) : list str :=
  match n with
  | Tag name _ contents => name :: flat_map tag_names_node contents
  | _ => []
  end.

Definition tag_names (d : document) : list str :=
  flat_map tag_names_node d.

(** The characters of a string that are not whitespace. *)
Definition keep_non_ws (s : str) : str :=
  filter (fun c => negb (isspace c)) s.

(** The shape of a match of the raw-link pattern: one of the two schemes,
    then one or more characters of the class. *)
Definition has_scheme (scheme m : str) : bool :=
  startswith m scheme
  && nonempty (skipn (List.length scheme) m)
  && forallb url_char (skipn (List.length scheme) m).

Definition well_formed_url (m : str) : bool :=
  has_scheme (lit "https://") m || has_scheme (lit "http://") m.

(** Assumptions on the library functions of an environment. *)
Definition set_order_ok (E : environment) : Prop :=
  forall l, NoDup l -> Permutation (set_order E l) l.




(** ** Small concrete worlds *)

Module Fixtures.

Definition a_tag (href : str) (contents : list node) : node :=
  Tag (lit "a") [(lit "href", href)] contents.

Definition doc_link : document :=
  [a_tag (lit "/about") [NavigableString (lit "text")]].

Definition doc_nested : document :=
  [a_tag (lit "/x")
     [NavigableString (lit "t1");
      a_tag (lit "/y") [NavigableString (lit "t2")]]].

Definition body_link : str := lit "<a href='/about'>text</a>".

Definition ascii_lower (s : str) : str :=
  map (fun c => if ((65 <=? c) && (c <=? 90))%N then (c + 32)%N else c) s.

(** A link whose host has an empty label: the request for it raises
    urllib3's [LocationParseError]. *)
Definition bad_link : str := lit "https://about..nike.com/".

Definition body_bad_link : str := lit "<a href='https://about..nike.com/'>text</a>".

Definition doc_bad_link : document :=
  [a_tag bad_link [NavigableString (lit "text")]].



Definition toy_parser (body : str) : result document :=
  if str_eqb body body_link then Ok doc_link
  else if str_eqb body body_bad_link then Ok doc_bad_link
  else Ok [NavigableString body].

(** A stand-in for [urljoin] that always returns: an absolute destination
    is kept, a path is put behind the base. *)
Definition toy_urljoin (base href : str) : result str :=
  if startswith href (lit "http") then Ok href else Ok (base ++ href).


Definition mk_env_with
    (join : str -> str -> result str)
    (get : list event -> str -> result http_response)
    (gen : list event -> str -> result gen_response) : environment :=
  {| requests_get_oracle := get;
     generate_content_oracle := gen;
     to_csv_oracle := fun _ _ => None;
     html_parser := toy_parser;
     urljoin := join;
     lower := ascii_lower;
     set_order := @rev str |}.

Definition mk_env := mk_env_with toy_urljoin.

Definition get_down : list event -> str -> result http_response :=
  fun _ _ => Raise (RequestException ConnectionError).

Definition get_ok : list event -> str -> result http_response :=
  fun _ _ => Ok {| status_code := 200; text := body_link |}.

(** The company page answers with status 304 and a body. *)
Definition get_304 : list event -> str -> result http_response :=
  fun _ _ => Ok {| status_code := 304; text := body_link |}.

Definition says (t : str) : result gen_response :=
  Ok {| truthy := true; response_text := Ok t |}.

Definition gen_plain : list event -> str -> result gen_response :=
  fun _ _ => says (lit "Founded 1999, HQ: Nowhere").

Definition gen_marker : list event -> str -> result gen_response :=
  fun _ _ => says (lit "HQ: Information Not Available").

Definition gen_quota : list event -> str -> result gen_response :=
  fun _ _ => Raise ResourceExhausted.

(** The call returns an object that counts as false. *)
Definition gen_falsy : list event -> str -> result gen_response :=
  fun _ _ => Ok {| truthy := false; response_text := Ok (lit "unused") |}.

Definition gen_marker_then_quota : list event -> str -> result gen_response :=
  fun h _ => match prompts h with
             | [] => says (lit "HQ: Information Not Available")
             | _ => Raise ResourceExhausted
             end.

Definition w0 : world := {| heap := []; trace := [] |}.

Definition w_link : world := {| heap := [doc_link]; trace := [] |}.

Definition apple : str := lit "https://www.apple.com".

Definition nike : str := lit "https://www.nike.com".

Definition doc_plain : document :=
  [Tag (lit "p") [] [NavigableString (lit " Founded in 1999 ")];
   HiddenString (lit "a comment")].

Definition doc_script : document :=
  [Tag (lit "script") [] [NavigableString (lit "var x = 1;")];
   a_tag (lit "/about") [NavigableString (lit "text")]].

Definition w_plain : world := {| heap := [doc_plain]; trace := [] |}.



End Fixtures.
(** * Properties *)

(** ** Strings *)

Section StringFacts.

Lemma startswith_app (sub q : str) : startswith (sub ++ q) sub = true.
Proof.
  induction sub as [|c sub IH]; simpl; [reflexivity|].
  now rewrite N.eqb_refl, IH.
Qed.

Lemma contains_here (sub s : str) :
  startswith s sub = true -> contains sub s = true.
Proof. intros H. destruct s; simpl; now rewrite H. Qed.

Lemma contains_intro (sub p q : str) : contains sub (p ++ sub ++ q) = true.
Proof.
  induction p as [|c p IH]; simpl.
  - apply contains_here, startswith_app.
  - rewrite IH. apply orb_true_r.
Qed.

Lemma lstrip_fixed (s : str) : lstrip (lstrip s) = lstrip s.
Proof.
  induction s as [|c r IH]; simpl; [reflexivity|].
  destruct (isspace c) eqn:Hc; [exact IH|].
  simpl. now rewrite Hc.
Qed.

(** [lstrip] only removes a block of whitespace at the front. *)
Lemma lstrip_split (s : str) :
  exists q, s = q ++ lstrip s /\ forallb isspace q = true.
Proof.
  induction s as [|c r [q [Hq Hws]]]; simpl.
  - exists []. split; reflexivity.
  - destruct (isspace c) eqn:Hc.
    + exists (c :: q). simpl. rewrite Hc, Hws. split; [now f_equal|reflexivity].
    + exists []. split; reflexivity.
Qed.

Lemma rstrip_split (s : str) :
  exists q, s = rstrip s ++ q /\ forallb isspace q = true.
Proof.
  unfold rstrip.
  destruct (lstrip_split (rev s)) as [q [Hq Hws]].
  exists (rev q). split.
  - rewrite <- rev_app_distr, <- Hq. symmetry. apply rev_involutive.
  - rewrite forallb_forall in *. intros x Hx. apply Hws. now apply in_rev.
Qed.

Lemma rstrip_fixed (s : str) : rstrip (rstrip s) = rstrip s.
Proof.
  unfold rstrip. now rewrite rev_involutive, lstrip_fixed.
Qed.

Lemma lstrip_head (c : char) (r : str) :
  isspace c = false -> lstrip (c :: r) = c :: r.
Proof. intros H. simpl. now rewrite H. Qed.

Lemma lstrip_shape (s : str) :
  lstrip s = [] \/ exists c r, lstrip s = c :: r /\ isspace c = false.
Proof.
  induction s as [|c r IH]; simpl; [now left|].
  destruct (isspace c) eqn:Hc; [exact IH|].
  right. now exists c, r.
Qed.

Lemma strip_fixed (s : str) : strip (strip s) = strip s.
Proof.
  unfold strip.
  assert (H : lstrip (rstrip (lstrip s)) = rstrip (lstrip s)).
  { destruct (lstrip_shape s) as [Hnil | [c [r [Hcr Hc]]]].
    - rewrite Hnil. reflexivity.
    - rewrite Hcr.
      destruct (rstrip_split (c :: r)) as [q [Hq Hws]].
      destruct (rstrip (c :: r)) as [|c' r'] eqn:Hr.
      + reflexivity.
      + simpl in Hq. injection Hq as Hc' _. subst c'.
        now apply lstrip_head. }
  rewrite H. apply rstrip_fixed.
Qed.

End StringFacts.

(** ** [clean_text] *)

Module CleanText.

Lemma tidy_weaken (b : bool) (s : str) :
  tidy_from b s = true -> tidy_from false s = true.
Proof.
  destruct s as [|c r]; simpl; [reflexivity|].
  destruct (isspace c); [|tauto].
  rewrite !andb_true_iff. intros [[H1 _] H3]. now rewrite H1, H3.
Qed.

Lemma tidy_tail (b : bool) (c : char) (r : str) :
  tidy_from b (c :: r) = true -> tidy_from false r = true.
Proof.
  simpl. destruct (isspace c); rewrite !andb_true_iff.
  - intros [_ H]. now apply tidy_weaken in H.
  - now intros [_ H].
Qed.

Lemma tidy_prefix (b : bool) (p q : str) :
  tidy_from b (p ++ q) = true -> tidy_from b p = true.
Proof.
  revert b. induction p as [|c p IH]; intros b; simpl; [reflexivity|].
  destruct (isspace c); rewrite !andb_true_iff.
  - intros [H1 H2]. split; [exact H1|]. now apply IH.
  - intros [H1 H2]. split; [exact H1|]. now apply IH.
Qed.

Lemma tidy_lstrip (s : str) :
  tidy_from false s = true -> tidy_from false (lstrip s) = true.
Proof.
  induction s as [|c r IH]; simpl; [reflexivity|].
  destruct (isspace c) eqn:Hc.
  - rewrite !andb_true_iff. intros [_ H]. apply IH. now apply tidy_weaken in H.
  - intros H. simpl. now rewrite Hc.
Qed.

Lemma tidy_strip (s : str) :
  tidy_from false s = true -> tidy_from false (strip s) = true.
Proof.
  intros H. apply tidy_lstrip in H. unfold strip.
  destruct (rstrip_split (lstrip s)) as [q [Hq _]].
  rewrite Hq in H. now apply tidy_prefix in H.
Qed.

Lemma tidy_sub_ws (b : bool) (s : str) :
  ~ In DQUOTE s -> tidy_from b (sub_ws_from b s) = true.
Proof.
  revert b. induction s as [|c r IH]; intros b Hq; simpl; [reflexivity|].
  assert (Hr : ~ In DQUOTE r) by (intros H; apply Hq; now right).
  assert (Hc : N.eqb c DQUOTE = false).
  { apply N.eqb_neq. intros ->. apply Hq. now left. }
  destruct (isspace c) eqn:Hs.
  - destruct b; simpl.
    + now apply IH.
    + now apply IH.
  - simpl. rewrite Hs, Hc. simpl. now apply IH.
Qed.

Lemma sub_ws_tidy (b : bool) (s : str) :
  tidy_from b s = true -> sub_ws_from b s = s.
Proof.
  revert b. induction s as [|c r IH]; intros b; simpl; [reflexivity|].
  destruct (isspace c) eqn:Hs; rewrite !andb_true_iff.
  - intros [[H1 H2] H3]. apply N.eqb_eq in H1. subst c.
    destruct b; [discriminate|]. f_equal. now apply IH.
  - intros [_ H]. f_equal. now apply IH.
Qed.

Lemma tidy_no_dquote (b : bool) (s : str) :
  tidy_from b s = true -> ~ In DQUOTE s.
Proof.
  revert b. induction s as [|c r IH]; intros b; simpl; [tauto|].
  destruct (isspace c) eqn:Hs; rewrite !andb_true_iff.
  - intros [[H1 _] H3] [Hc | Hin].
    + subst c. discriminate.
    + exact (IH _ H3 Hin).
  - intros [H1 H2] [Hc | Hin].
    + subst c. discriminate.
    + exact (IH _ H2 Hin).
Qed.

Lemma tidy_no_newline (b : bool) (s : str) :
  tidy_from b s = true -> ~ In NL s.
Proof.
  revert b. induction s as [|c r IH]; intros b; simpl; [tauto|].
  destruct (isspace c) eqn:Hs; rewrite !andb_true_iff.
  - intros [[H1 _] H3] [Hc | Hin].
    + subst c. discriminate.
    + exact (IH _ H3 Hin).
  - intros [H1 H2] [Hc | Hin].
    + subst c. discriminate.
    + exact (IH _ H2 Hin).
Qed.

Lemma tidy_no_ws_run (b : bool) (s : str) :
  tidy_from b s = true -> no_ws_run s = true.
Proof.
  revert b. induction s as [|c1 r IH]; intros b H; [reflexivity|].
  destruct r as [|c2 r']; [reflexivity|].
  change (negb (isspace c1 && isspace c2) && no_ws_run (c2 :: r') = true).
  change (tidy_from b (c1 :: c2 :: r'))
    with (if isspace c1
          then N.eqb c1 SPACE && negb b && tidy_from true (c2 :: r')
          else negb (N.eqb c1 DQUOTE) && tidy_from false (c2 :: r')) in H.
  destruct (isspace c1) eqn:H1.
  - rewrite !andb_true_iff in H. destruct H as [_ H].
    rewrite (IH _ H). simpl in H.
    destruct (isspace c2); [|reflexivity].
    rewrite andb_false_r in H. discriminate.
  - rewrite andb_true_iff in H. destruct H as [_ H].
    now rewrite (IH _ H).
Qed.

Lemma replace_absent (a b : char) (s : str) :
  ~ In a s -> replace_char a b s = s.
Proof.
  induction s as [|c r IH]; intros H; simpl; [reflexivity|].
  destruct (N.eqb_spec c a) as [-> | _].
  - exfalso. apply H. now left.
  - f_equal. apply IH. intros Hin. apply H. now right.
Qed.

Lemma replace_removes (a b : char) (s : str) :
  a <> b -> ~ In a (replace_char a b s).
Proof.
  intros Hab. induction s as [|c r IH]; simpl; [tauto|].
  intros [H | H]; [|exact (IH H)].
  destruct (N.eqb_spec c a); congruence.
Qed.

Lemma replace_keeps_absent (x a b : char) (s : str) :
  x <> b -> ~ In x s -> ~ In x (replace_char a b s).
Proof.
  intros Hxb. induction s as [|c r IH]; simpl; [tauto|].
  intros Hs [H | H].
  - destruct (N.eqb_spec c a); [congruence|]. apply Hs. now left.
  - apply IH; [|exact H]. intros Hin. apply Hs. now right.
Qed.

Lemma clean_text_tidy (s : str) : tidy_from false (clean_text s) = true.
Proof.
  unfold clean_text, re_sub_ws. apply tidy_strip, tidy_sub_ws.
  apply replace_keeps_absent; [discriminate|].
  apply replace_removes. discriminate.
Qed.

End CleanText.

(** C9.  [clean_text] is idempotent, and a cleaned string holds no newline,
    no double quote and no two neighbouring whitespace characters. *)
Theorem clean_text_idempotent (s : str) :
  clean_text (clean_text s) = clean_text s
  /\ ~ In NL (clean_text s)
  /\ ~ In DQUOTE (clean_text s)
  /\ no_ws_run (clean_text s) = true.
Proof.
  pose proof (CleanText.clean_text_tidy s) as Ht.
  pose proof (CleanText.tidy_no_dquote _ _ Ht) as Hq.
  pose proof (CleanText.tidy_no_newline _ _ Ht) as Hn.
  repeat split; [|exact Hn|exact Hq|exact (CleanText.tidy_no_ws_run _ _ Ht)].
  unfold clean_text at 1.
  rewrite (CleanText.replace_absent _ _ _ Hq), (CleanText.replace_absent _ _ _ Hn).
  unfold re_sub_ws. rewrite (CleanText.sub_ws_tidy _ _ Ht).
  unfold clean_text. apply strip_fixed.
Qed.

(** The three listed properties alone do not make a string a fixed point:
    a lone tab is rewritten to a space, and a leading space is dropped. *)
Lemma clean_text_changes_tab_and_edge :
  let s1 := lit "a" ++ [9%N] ++ lit "b" in
  let s2 := lit " a" in
  (~ In NL s1 /\ ~ In DQUOTE s1 /\ no_ws_run s1 = true /\ clean_text s1 <> s1)
  /\ (~ In NL s2 /\ ~ In DQUOTE s2 /\ no_ws_run s2 = true /\ clean_text s2 <> s2).
Proof.
  cbv zeta. repeat split; try reflexivity; try discriminate;
    simpl; intuition discriminate.
Qed.

(** ** Documents *)

Module SoupFacts.

(** Induction over a node together with the nodes below it. *)
Lemma node_ind' (P : node -> Prop) :
  (forall s, P (NavigableString s)) ->
  (forall s, P (HiddenString s)) ->
  (forall name attrs contents,
      Forall P contents -> P (Tag name attrs contents)) ->
  forall n, P n.
Proof.
  intros Hs Hh Ht.
  fix IH 1. intros [s | s | name attrs contents].
  - apply Hs.
  - apply Hh.
  - apply Ht. induction contents as [|n r IHr]; constructor.
    + apply IH.
    + exact IHr.
Qed.

Lemma flat_map_id_on {A} (f : A -> list A) (l : list A) :
  Forall (fun x => f x = [x]) l -> flat_map f l = l.
Proof.
  induction 1 as [|x l Hx _ IH]; simpl; [reflexivity|].
  now rewrite Hx, IH.
Qed.

Lemma flat_map_nil_inv {A B} (f : A -> list B) (l : list A) :
  flat_map f l = [] -> Forall (fun x => f x = []) l.
Proof.
  induction l as [|x l IH]; simpl; intros H; constructor.
  - now apply app_eq_nil in H.
  - apply IH. now apply app_eq_nil in H.
Qed.

(** Without a hyperlink below it, a node is left alone by the insertion
    pass. *)
Lemma insert_after_node_id (n : node) :
  anchor_hrefs_node n = [] -> insert_after_node n = [n].
Proof.
  induction n as [s | s | name attrs contents IH] using node_ind';
    [reflexivity | reflexivity |].
  simpl. intros H. apply app_eq_nil in H. destruct H as [Hhere Hbelow].
  assert (Hc : flat_map insert_after_node contents = contents).
  { apply flat_map_id_on. apply flat_map_nil_inv in Hbelow.
    rewrite Forall_forall in *. intros x Hx. apply (IH x Hx), (Hbelow x Hx). }
  rewrite Hc.
  destruct (str_eqb name (lit "a")); [|reflexivity].
  destruct (get_attr (lit "href") attrs); [discriminate|reflexivity].
Qed.

Lemma insert_after_links_id (d : document) :
  anchor_hrefs d = [] -> insert_after_links d = d.
Proof.
  intros H. apply flat_map_id_on. apply flat_map_nil_inv in H.
  rewrite Forall_forall in *. intros x Hx. apply insert_after_node_id, (H x Hx).
Qed.

Lemma flat_map_flat_map {A B C} (f : A -> list B) (g : B -> list C) (l : list A) :
  flat_map g (flat_map f l) = flat_map (fun x => flat_map g (f x)) l.
Proof.
  induction l as [|x l IH]; simpl; [reflexivity|].
  now rewrite flat_map_app, IH.
Qed.

Lemma flat_map_ext_on {A B} (f g : A -> list B) (l : list A) :
  Forall (fun x => f x = g x) l -> flat_map f l = flat_map g l.
Proof.
  induction 1 as [|x l Hx _ IH]; simpl; [reflexivity|].
  now rewrite Hx, IH.
Qed.

(** The insertion pass adds strings only: the hyperlinks and their
    destinations stay what they were. *)
Lemma anchor_hrefs_insert_node (n : node) :
  flat_map anchor_hrefs_node (insert_after_node n) = anchor_hrefs_node n.
Proof.
  induction n as [s | s | name attrs contents IH] using node_ind';
    [reflexivity | reflexivity |].
  assert (Hc : flat_map anchor_hrefs_node (flat_map insert_after_node contents)
               = flat_map anchor_hrefs_node contents).
  { rewrite flat_map_flat_map. now apply flat_map_ext_on. }
  simpl.
  destruct (str_eqb name (lit "a")) eqn:Ha;
    [destruct (get_attr (lit "href") attrs) eqn:Hh|];
    simpl; rewrite ?Ha, ?Hh, Hc, ?app_nil_r; reflexivity.
Qed.

Lemma anchor_hrefs_insert (d : document) :
  anchor_hrefs (insert_after_links d) = anchor_hrefs d.
Proof.
  unfold anchor_hrefs, insert_after_links.
  rewrite flat_map_flat_map. apply flat_map_ext_on.
  rewrite Forall_forall. intros x _. apply anchor_hrefs_insert_node.
Qed.

Lemma strip_link_note (href : str) :
  strip (link_note href) = lit "(" ++ href ++ lit ")".
Proof.
  unfold strip, link_note.
  change (lit " (" ++ href ++ lit ")") with (SPACE :: LPAREN :: href ++ [RPAREN]).
  change (lit "(" ++ href ++ lit ")") with (LPAREN :: href ++ [RPAREN]).
  change (lstrip (SPACE :: LPAREN :: href ++ [RPAREN]))
    with ((LPAREN :: href) ++ [RPAREN]).
  unfold rstrip. rewrite rev_app_distr.
  change (lstrip (rev [RPAREN] ++ rev (LPAREN :: href)))
    with (rev [RPAREN] ++ rev (LPAREN :: href)).
  rewrite <- rev_app_distr. apply rev_involutive.
Qed.

Lemma strings_normalized (d : document) :
  flat_map strings_node (normalized d) = flat_map out_strings d.
Proof.
  unfold normalized, insert_after_links, decompose_all.
  rewrite (flat_map_flat_map (decompose_node SCRIPT_STYLE) insert_after_node).
  now rewrite flat_map_flat_map.
Qed.

Lemma out_strings_tag (name : str) (attrs : list (str * str)) (contents : list node) :
  name_in SCRIPT_STYLE name = false ->
  exists tail,
    out_strings (Tag name attrs contents) = flat_map out_strings contents ++ tail
    /\ (name = lit "a" ->
        forall href, get_attr (lit "href") attrs = Some href ->
                     tail = [link_note href]).
Proof.
  intros Hname. unfold out_strings at 1.
  cbn [decompose_node]. rewrite Hname.
  cbn [flat_map insert_after_node]. rewrite app_nil_r.
  fold (decompose_all SCRIPT_STYLE contents).
  fold (insert_after_links (decompose_all SCRIPT_STYLE contents)).
  fold (normalized contents).
  destruct (str_eqb name (lit "a")) eqn:Ha;
    [destruct (get_attr (lit "href") attrs) as [h|] eqn:Hh|];
    cbn [flat_map strings_node app]; rewrite ?app_nil_r, strings_normalized.
  - exists [link_note h]. split; [reflexivity|]. intros _ href Heq.
    now injection Heq as ->.
  - exists []. split; [now rewrite app_nil_r|]. intros _ href Heq. discriminate.
  - exists []. split; [now rewrite app_nil_r|]. intros -> href _.
    unfold str_eqb in Ha. destruct (str_eq_dec (lit "a") (lit "a")); congruence.
Qed.

Lemma flat_map_in_split {A B} (f : A -> list B) (x : A) (l : list A) :
  In x l -> exists b a, flat_map f l = b ++ f x ++ a.
Proof.
  intros Hin. apply in_split in Hin. destruct Hin as [l1 [l2 ->]].
  exists (flat_map f l1), (flat_map f l2).
  now rewrite flat_map_app.
Qed.

(** The strings of the output around a hyperlink: those of its contents,
    then its note. *)
Lemma strings_around_link (d : document) (attrs : list (str * str))
    (contents : list node) (href : str) :
  occurs_in (Tag (lit "a") attrs contents) d ->
  get_attr (lit "href") attrs = Some href ->
  exists before after,
    flat_map strings_node (normalized d)
    = before
      ++ flat_map strings_node (normalized contents)
      ++ [link_note href] ++ after.
Proof.
  intros Hocc Hh. rewrite !strings_normalized.
  induction Hocc as [d Hin | name attrs' contents' d Hin Hname _ IH].
  - destruct (flat_map_in_split out_strings _ _ Hin) as [b [a Hd]].
    destruct (out_strings_tag (lit "a") attrs contents eq_refl)
      as [tail [Hout Htail]].
    rewrite (Htail eq_refl href Hh) in Hout.
    exists b, a. now rewrite Hd, Hout, <- !app_assoc.
  - destruct (flat_map_in_split out_strings _ _ Hin) as [b [a Hd]].
    destruct (out_strings_tag name attrs' contents' Hname) as [tail [Hout _]].
    destruct IH as [b' [a' IH]].
    exists (b ++ b'), (a' ++ tail ++ a).
    rewrite Hd, Hout, IH, <- !app_assoc. reflexivity.
Qed.

Lemma join_app (sep : str) (l1 l2 : list str) :
  l1 <> [] -> l2 <> [] ->
  join sep (l1 ++ l2) = join sep l1 ++ sep ++ join sep l2.
Proof.
  intros H1 H2. induction l1 as [|x l1 IH]; [congruence|].
  destruct l1 as [|y l1].
  - simpl. destruct l2; [congruence|reflexivity].
  - change (join sep ((x :: y :: l1) ++ l2))
      with (x ++ sep ++ join sep ((y :: l1) ++ l2)).
    rewrite IH by discriminate.
    change (join sep (x :: y :: l1)) with (x ++ sep ++ join sep (y :: l1)).
    now rewrite <- !app_assoc.
Qed.

(** A block of consecutive parts shows up as one piece of the joined
    string. *)
Lemma join_middle (sep : str) (l1 m l2 : list str) :
  m <> [] ->
  exists p q, join sep (l1 ++ m ++ l2) = p ++ join sep m ++ q.
Proof.
  intros Hm.
  assert (Hright : exists q, join sep (m ++ l2) = join sep m ++ q).
  { destruct l2 as [|z l2].
    - exists []. now rewrite !app_nil_r.
    - exists (sep ++ join sep (z :: l2)). apply join_app; [exact Hm|discriminate]. }
  destruct Hright as [q Hq].
  destruct l1 as [|x l1].
  - exists [], q. exact Hq.
  - exists (join sep (x :: l1) ++ sep), q.
    rewrite join_app; [|discriminate|destruct m; [congruence|discriminate]].
    rewrite Hq. now rewrite <- !app_assoc.
Qed.

End SoupFacts.

(** ** The store of documents *)

Module Store.

Lemma set_nth_length {A} (i : nat) (x : A) (l : list A) :
  List.length (set_nth i x l) = List.length l.
Proof.
  revert i. induction l as [|h t IH]; intros [|j]; simpl; auto.
Qed.

Lemma nth_set_nth {A} (i : nat) (x def : A) (l : list A) :
  i < List.length l -> nth i (set_nth i x l) def = x.
Proof.
  revert i. induction l as [|h t IH]; intros [|j]; simpl; intros H;
    try lia; [reflexivity|]. apply IH. lia.
Qed.

Lemma nth_set_nth_other {A} (i j : nat) (x def : A) (l : list A) :
  j <> i -> nth j (set_nth i x l) def = nth j l def.
Proof.
  revert i j. induction l as [|h t IH]; intros [|i] [|j] H; simpl;
    try reflexivity; try congruence.
  apply IH. congruence.
Qed.

Lemma set_nth_twice {A} (i : nat) (x y : A) (l : list A) :
  set_nth i x (set_nth i y l) = set_nth i x l.
Proof.
  revert i. induction l as [|h t IH]; intros [|j]; simpl; try reflexivity.
  now rewrite IH.
Qed.

Lemma set_nth_last {A} (x y : A) (l : list A) :
  set_nth (List.length l) x (l ++ [y]) = l ++ [x].
Proof. induction l as [|h t IH]; simpl; [reflexivity|]. now rewrite IH. Qed.

Lemma nth_last {A} (y def : A) (l : list A) :
  nth (List.length l) (l ++ [y]) def = y.
Proof. induction l as [|h t IH]; simpl; auto. Qed.

(** What one call of [extract_text] does to the world. *)
Lemma extract_text_run (soup : soup_ref) (w : world) :
  soup < List.length (heap w) ->
  extract_text soup w
  = (Ok (flattened (nth soup (heap w) [])),
     {| heap := set_nth soup (normalized (nth soup (heap w) [])) (heap w);
        trace := trace w |}).
Proof.
  intros Hvalid.
  unfold extract_text, bind, read_soup, write_soup, ret. cbn [heap trace].
  repeat (rewrite nth_set_nth by (rewrite ?set_nth_length; exact Hvalid)).
  rewrite !set_nth_twice.
  reflexivity.
Qed.

End Store.

Import Fixtures.


(** C8, as it holds.  For a hyperlink with an [href] that lies outside every
    [script] and [style] element, has some visible text and no further
    hyperlink inside it, the output of [extract_text] contains the visible
    text, one space, and the destination in parentheses. *)
Theorem link_note_follows_text
    (d : document) (attrs : list (str * str)) (contents : list node)
    (href : str) (soup : soup_ref) (w : world) :
  soup < List.length (heap w) ->
  nth soup (heap w) [] = d ->
  occurs_in (Tag (lit "a") attrs contents) d ->
  get_attr (lit "href") attrs = Some href ->
  visible_text contents <> [] ->
  anchor_hrefs (decompose_all SCRIPT_STYLE contents) = [] ->
  exists out,
    fst (extract_text soup w) = Ok out
    /\ contains (visible_text contents ++ link_note href) out = true.
Proof.
  intros Hvalid Hd Hocc Hhref Htext Hplain.
  rewrite Store.extract_text_run by exact Hvalid. rewrite Hd.
  eexists. split; [reflexivity|].
  destruct (SoupFacts.strings_around_link d attrs contents href Hocc Hhref)
    as [before [after Hs]].
  assert (Hc : normalized contents = decompose_all SCRIPT_STYLE contents)
    by (apply SoupFacts.insert_after_links_id; exact Hplain).
  rewrite Hc in Hs.
  set (inner := stripped_strings (decompose_all SCRIPT_STYLE contents)).
  assert (Hinner : inner <> []).
  { intros Hnil. apply Htext. unfold visible_text, get_text. fold inner.
    now rewrite Hnil. }
  assert (Hout : stripped_strings (normalized d)
                 = filter nonempty (map strip before)
                   ++ (inner ++ [lit "(" ++ href ++ lit ")"])
                   ++ filter nonempty (map strip after)).
  { unfold stripped_strings. rewrite Hs.
    rewrite !map_app, !filter_app. cbn [map filter].
    rewrite SoupFacts.strip_link_note.
    replace (nonempty (lit "(" ++ href ++ lit ")")) with true by reflexivity.
    fold (stripped_strings (decompose_all SCRIPT_STYLE contents)). fold inner.
    now rewrite <- !app_assoc. }
  destruct (SoupFacts.join_middle [SPACE] (filter nonempty (map strip before))
              (inner ++ [lit "(" ++ href ++ lit ")"])
              (filter nonempty (map strip after)))
    as [p [q Hj]]; [destruct inner; discriminate|].
  unfold flattened, get_text. rewrite Hout, Hj.
  rewrite SoupFacts.join_app by (congruence || discriminate).
  unfold visible_text, get_text. fold inner.
  replace (join [SPACE] inner ++ [SPACE] ++ join [SPACE] [lit "(" ++ href ++ lit ")"])
    with (join [SPACE] inner ++ link_note href)
    by reflexivity.
  apply contains_intro.
Qed.

Lemma link_note_follows_text_witness :
  exists out,
    fst (extract_text 0 w_link) = Ok out
    /\ contains (visible_text [NavigableString (lit "text")]
                 ++ link_note (lit "/about")) out = true.
Proof.
  apply (link_note_follows_text doc_link [(lit "href", lit "/about")]
           [NavigableString (lit "text")] (lit "/about") 0 w_link).
  - simpl. lia.
  - reflexivity.
  - apply occurs_here. simpl. left. reflexivity.
  - reflexivity.
  - vm_compute. discriminate.
  - reflexivity.
Defined.

(** C8, as stated, fails when one hyperlink sits inside another: the note
    of the inner link comes between the text of the outer link and the note
    of the outer link. *)
Lemma nested_link_note_not_adjacent :
  let inner := a_tag (lit "/y") [NavigableString (lit "t2")] in
  let contents := [NavigableString (lit "t1"); inner] in
  occurs_in (a_tag (lit "/x") contents) doc_nested
  /\ visible_text contents = lit "t1 t2"
  /\ flattened doc_nested = lit "t1 t2 (/y) (/x)"
  /\ note_follows_text doc_nested contents (lit "/x") = false
  /\ contains (lit "t1" ++ link_note (lit "/x")) (flattened doc_nested) = false.
Proof.
  cbv zeta. split; [|repeat split; reflexivity].
  apply occurs_here. left. reflexivity.
Qed.

(** C6, as it holds.  [extract_text] works on the caller's document itself,
    not on a copy: afterwards the reference holds the tree with [script]
    and [style] removed and a note after every hyperlink, and every later
    reader of that reference sees this tree.  Nothing else changes: the
    other documents and the trace are as before, and the hyperlinks of the
    new tree are those of the old one outside [script] and [style]. *)
Theorem extract_text_mutates_in_place (soup : soup_ref) (w : world) :
  soup < List.length (heap w) ->
  let d := nth soup (heap w) [] in
  exists w',
    extract_text soup w = (Ok (get_text (normalized d)), w')
    /\ nth soup (heap w') [] = normalized d
    /\ (forall other, other <> soup ->
          nth other (heap w') [] = nth other (heap w) [])
    /\ List.length (heap w') = List.length (heap w)
    /\ trace w' = trace w
    /\ anchor_hrefs (nth soup (heap w') [])
       = anchor_hrefs (decompose_all SCRIPT_STYLE d).
Proof.
  intros Hvalid d. rewrite Store.extract_text_run by exact Hvalid.
  eexists. split; [reflexivity|]. cbn [heap trace]. fold d.
  assert (Hnew : nth soup (set_nth soup (normalized d) (heap w)) [] = normalized d)
    by (apply Store.nth_set_nth; exact Hvalid).
  repeat split.
  - exact Hnew.
  - intros other Hother. now apply Store.nth_set_nth_other.
  - apply Store.set_nth_length.
  - rewrite Hnew. apply SoupFacts.anchor_hrefs_insert.
Qed.

Lemma extract_text_mutates_in_place_witness :
  exists w',
    extract_text 0 w_link = (Ok (get_text (normalized doc_link)), w')
    /\ nth 0 (heap w') [] = normalized doc_link
    /\ (forall other, other <> 0 -> nth other (heap w') [] = nth other (heap w_link) [])
    /\ List.length (heap w') = List.length (heap w_link)
    /\ trace w' = trace w_link
    /\ anchor_hrefs (nth 0 (heap w') [])
       = anchor_hrefs (decompose_all SCRIPT_STYLE doc_link).
Proof.
  apply (extract_text_mutates_in_place 0 w_link). simpl. lia.
Defined.

(** C6, as stated, fails: after [extract_text] the document behind the
    reference is no longer the one that was parsed, and a later operation
    on it (here a second [extract_text]) sees the difference. *)
Lemma extract_text_changes_document :
  exists t1 w1 t2 w2,
    extract_text 0 w_link = (Ok t1, w1)
    /\ extract_text 0 w1 = (Ok t2, w2)
    /\ nth 0 (heap w_link) [] = doc_link
    /\ nth 0 (heap w1) [] <> doc_link
    /\ t1 = lit "text (/about)"
    /\ t2 = lit "text (/about) (/about)".
Proof.
  do 4 eexists. repeat split; try reflexivity.
  vm_compute. discriminate.
Qed.

(** ** Runs of the effectful functions *)

Module Runs.

Section WithEnvironment.

Variable E : environment.

Lemma fetch_content_failed (url : str) (w : world) :
  let o := requests_get_oracle E (trace w) url in
  fetched E o = Ok None ->
  fetch_content E url w = (Ok None, log w (EvGet url o)).
Proof.
  intros o Hf. subst o.
  cbv [fetch_content bind try_except requests_get raise_for_status
       get_trace emit raise ret log lift].
  unfold fetched, error_status in Hf.
  destruct (requests_get_oracle E (trace w) url) as [resp | e].
  - destruct ((400 <=? status_code resp) && (status_code resp <? 600))%N;
      [reflexivity|].
    destruct (html_parser E (text resp)); discriminate.
  - destruct (is_RequestException e); [reflexivity | discriminate].
Qed.

Lemma fetch_content_ok (url : str) (w : world) (resp : http_response)
    (d : document) :
  let o := requests_get_oracle E (trace w) url in
  fetched E o = Ok (Some (resp, d)) ->
  fetch_content E url w
  = (Ok (Some (List.length (heap w), findall_urls (text resp))),
     {| heap := heap w ++ [d]; trace := trace w ++ [EvGet url o] |}).
Proof.
  intros o Hf. subst o.
  cbv [fetch_content bind try_except requests_get raise_for_status
       get_trace emit raise ret new_soup lift].
  unfold fetched, error_status in Hf.
  destruct (requests_get_oracle E (trace w) url) as [resp' | e].
  - destruct ((400 <=? status_code resp') && (status_code resp' <? 600))%N;
      [discriminate|].
    destruct (html_parser E (text resp')) as [d' | e]; [|discriminate].
    injection Hf as -> ->. reflexivity.
  - destruct (is_RequestException e); discriminate.
Qed.

(** An exception that is not caught leaves [fetch_content] after the
    request has been made and before anything is stored. *)
Lemma fetch_content_escapes (url : str) (w : world) (e : exn) :
  let o := requests_get_oracle E (trace w) url in
  fetched E o = Raise e ->
  fetch_content E url w = (Raise e, log w (EvGet url o)).
Proof.
  intros o Hf. subst o.
  cbv [fetch_content bind try_except requests_get raise_for_status
       get_trace emit raise ret log lift].
  unfold fetched, error_status in Hf.
  destruct (requests_get_oracle E (trace w) url) as [resp | e'].
  - destruct ((400 <=? status_code resp) && (status_code resp <? 600))%N;
      [discriminate|].
    destruct (html_parser E (text resp)) as [d | e']; [discriminate|].
    injection Hf as ->. reflexivity.
  - destruct (is_RequestException e'); [discriminate|].
    injection Hf as ->. reflexivity.
Qed.

Lemma extract_text_fresh (h : list document) (d : document) (tr : list event) :
  extract_text (List.length h) {| heap := h ++ [d]; trace := tr |}
  = (Ok (flattened d), {| heap := h ++ [normalized d]; trace := tr |}).
Proof.
  rewrite Store.extract_text_run
    by (cbn [heap]; rewrite length_app; simpl; lia).
  cbn [heap trace]. now rewrite Store.nth_last, Store.set_nth_last.
Qed.

Lemma call_gemini_api_run (cleaned_text : str) (w : world) :
  let o := generate_content_oracle E (trace w) (make_prompt cleaned_text) in
  call_gemini_api E cleaned_text w
  = (Ok (answer_of o), log w (EvGenerate (make_prompt cleaned_text) o)).
Proof.
  intros o. subst o.
  cbv [call_gemini_api try_except bind generate_content get_trace emit
       raise ret log answer_of model_call_failed model_text is_Exception].
  destruct (generate_content_oracle E (trace w) (make_prompt cleaned_text))
    as [r | e]; [|reflexivity].
  destruct (truthy r); [|reflexivity].
  destruct (response_text r); reflexivity.
Qed.

Lemma loop_nil (t i : str) (w : world) :
  expansion_loop E [] t i w = (Ok i, w).
Proof. reflexivity. Qed.

Lemma loop_skip (link : str) (rest : list str) (t i : str) (w : world) :
  let o := requests_get_oracle E (trace w) link in
  fetched E o = Ok None ->
  expansion_loop E (link :: rest) t i w
  = expansion_loop E rest t i (log w (EvGet link o)).
Proof.
  intros o Hf. cbn [expansion_loop]. unfold bind at 1.
  now rewrite (fetch_content_failed link w Hf).
Qed.

Lemma loop_abort (link : str) (rest : list str) (t i : str) (w : world)
    (e : exn) :
  let o := requests_get_oracle E (trace w) link in
  fetched E o = Raise e ->
  expansion_loop E (link :: rest) t i w = (Raise e, log w (EvGet link o)).
Proof.
  intros o Hf. cbn [expansion_loop]. unfold bind at 1.
  now rewrite (fetch_content_escapes link w e Hf).
Qed.

Lemma loop_visit (link : str) (rest : list str) (t i : str) (w : world)
    (resp : http_response) (d : document) :
  let o := requests_get_oracle E (trace w) link in
  fetched E o = Ok (Some (resp, d)) ->
  let t' := t ++ [NL] ++ flattened d in
  let w1 := page_world w link o d in
  expansion_loop E (link :: rest) t i w
  = if contains MARKER (answer_in E w1 t')
    then expansion_loop E rest t' (answer_in E w1 t') (asked E w1 t')
    else (Ok (answer_in E w1 t'), asked E w1 t').
Proof.
  intros o Hf t' w1. cbn [expansion_loop]. unfold bind at 1.
  rewrite (fetch_content_ok link w resp d Hf).
  unfold bind at 1. rewrite extract_text_fresh.
  unfold bind at 1. rewrite call_gemini_api_run.
  subst t' w1 o. unfold answer_in, asked, page_world, log, ret.
  cbn [trace heap].
  destruct (contains MARKER _); reflexivity.
Qed.

(** Induction along a run of the loop. *)
Lemma expansion_loop_ind
    (P : list str -> str -> str -> world -> result str * world -> Prop) :
  (forall t i w, P [] t i w (Ok i, w)) ->
  (forall link rest t i w r,
      let o := requests_get_oracle E (trace w) link in
      fetched E o = Ok None ->
      P rest t i (log w (EvGet link o)) r ->
      P (link :: rest) t i w r) ->
  (forall link rest t i w e,
      let o := requests_get_oracle E (trace w) link in
      fetched E o = Raise e ->
      P (link :: rest) t i w (Raise e, log w (EvGet link o))) ->
  (forall link rest t i w resp d,
      let o := requests_get_oracle E (trace w) link in
      fetched E o = Ok (Some (resp, d)) ->
      let t' := t ++ [NL] ++ flattened d in
      let w1 := page_world w link o d in
      contains MARKER (answer_in E w1 t') = false ->
      P (link :: rest) t i w (Ok (answer_in E w1 t'), asked E w1 t')) ->
  (forall link rest t i w resp d r,
      let o := requests_get_oracle E (trace w) link in
      fetched E o = Ok (Some (resp, d)) ->
      let t' := t ++ [NL] ++ flattened d in
      let w1 := page_world w link o d in
      contains MARKER (answer_in E w1 t') = true ->
      P rest t' (answer_in E w1 t') (asked E w1 t') r ->
      P (link :: rest) t i w r) ->
  forall links t i w, P links t i w (expansion_loop E links t i w).
Proof.
  intros Hnil Hskip Habort Hstop Hcont.
  induction links as [|link rest IH]; intros t i w.
  - apply Hnil.
  - destruct (fetched E (requests_get_oracle E (trace w) link))
      as [[[resp d]|] | e] eqn:Hf.
    + rewrite (loop_visit link rest t i w resp d Hf).
      destruct (contains MARKER _) eqn:Hm.
      * apply (Hcont link rest t i w resp d _ Hf Hm). apply IH.
      * apply (Hstop link rest t i w resp d Hf Hm).
    + rewrite (loop_skip link rest t i w Hf).
      apply (Hskip link rest t i w _ Hf). apply IH.
    + rewrite (loop_abort link rest t i w e Hf).
      apply (Habort link rest t i w e Hf).
Qed.

Lemma gci_failed (url : str) (w : world) :
  let o := requests_get_oracle E (trace w) url in
  fetched E o = Ok None ->
  get_company_information E url w = (Ok FAILED, log w (EvGet url o)).
Proof.
  intros o Hf. unfold get_company_information, bind at 1.
  now rewrite (fetch_content_failed url w Hf).
Qed.

Lemma gci_escapes (url : str) (w : world) (e : exn) :
  let o := requests_get_oracle E (trace w) url in
  fetched E o = Raise e ->
  get_company_information E url w = (Raise e, log w (EvGet url o)).
Proof.
  intros o Hf. unfold get_company_information, bind at 1.
  now rewrite (fetch_content_escapes url w e Hf).
Qed.

Lemma gci_fetched (url : str) (w : world) (resp : http_response) (d : document) :
  let o := requests_get_oracle E (trace w) url in
  fetched E o = Ok (Some (resp, d)) ->
  let t := flattened d in
  let w1 := page_world w url o d in
  get_company_information E url w
  = if contains MARKER (answer_in E w1 t)
    then bind (extract_relevant_links E (List.length (heap w))
                 (findall_urls (text resp)) url url)
           (fun links => expansion_loop E links t (answer_in E w1 t))
           (asked E w1 t)
    else (Ok (answer_in E w1 t), asked E w1 t).
Proof.
  intros o Hf t w1. unfold get_company_information, bind at 1.
  rewrite (fetch_content_ok url w resp d Hf).
  unfold bind at 1. rewrite extract_text_fresh.
  unfold bind at 1. rewrite call_gemini_api_run.
  subst t w1 o. unfold answer_in, asked, page_world, log, ret.
  cbn [trace heap].
  destruct (contains MARKER _); reflexivity.
Qed.

(** The link filter touches nothing, whether it returns or raises. *)
Lemma extract_relevant_links_run
    (soup : soup_ref) (js_links : list str) (base_url url : str) (w : world) :
  extract_relevant_links E soup js_links base_url url w
  = (match map_result (urljoin E base_url)
             (filter (fun href =>
                        any_keyword_in (dict_get COMPANY_KEYWORDS url []) (lower E href))
                (anchor_hrefs (nth soup (heap w) []))) with
     | Ok joined =>
         Ok (set_order E
               (set_update (set_update [] joined)
                  (filter (fun link =>
                             any_keyword_in (dict_get COMPANY_KEYWORDS url [])
                               (lower E link)) js_links)))
     | Raise e => Raise e
     end, w).
Proof.
  cbv [extract_relevant_links bind read_soup lift ret].
  destruct (map_result _ _); reflexivity.
Qed.

End WithEnvironment.

End Runs.

(** ** The expansion loop *)

Module Loop.

Section WithEnvironment.

Variable E : environment.

Lemma last_cons {A} (a d : A) (l : list A) : last (a :: l) d = last l a.
Proof.
  revert a d. induction l as [|b l IH]; intros a d; [reflexivity|].
  change (last (a :: b :: l) d) with (last (b :: l) d).
  now rewrite !IH.
Qed.

Lemma page_texts_get_none (url : str) (o : result http_response) (evs : list event) :
  (forall resp d, fetched E o <> Ok (Some (resp, d))) ->
  page_texts E (EvGet url o :: evs) = page_texts E evs.
Proof.
  intros Hf. unfold page_texts, pages_of. cbn [flat_map].
  destruct (fetched E o) as [[[resp d]|] | e]; try reflexivity.
  exfalso. exact (Hf resp d eq_refl).
Qed.

Lemma page_texts_get_ok (url : str) (o : result http_response)
    (resp : http_response) (d : document) (evs : list event) :
  fetched E o = Ok (Some (resp, d)) ->
  page_texts E (EvGet url o :: evs) = flattened d :: page_texts E evs.
Proof.
  intros Hf. unfold page_texts, pages_of. cbn [flat_map]. now rewrite Hf.
Qed.

Lemma loop_outcome_holds (links : list str) (t i : str) (w : world) :
  loop_outcome E links t i w (expansion_loop E links t i w).
Proof.
  revert links t i w. apply (Runs.expansion_loop_ind E (loop_outcome E)).
  - intros t i w. exists []. cbn [fst snd]. rewrite app_nil_r.
    split; [reflexivity|]. split; [now exists 0|]. split; [reflexivity|].
    split; [constructor|]. repeat split.
  - intros link rest t i w r o Hf (evs & Htr & [k Hk] & Hp & Hall & Hend).
    exists (EvGet link o :: evs).
    split. { rewrite Htr. cbn [log trace]. now rewrite <- app_assoc. }
    split. { exists (S k). cbn. now rewrite <- Hk. }
    split. { rewrite page_texts_get_none by (intros resp d; congruence). exact Hp. }
    split; [exact Hall|].
    destruct (fst r) as [final | e].
    + destruct Hend as (Hlast & Hex & _).
      split; [exact Hlast|]. split; [|discriminate].
      intros Hm. cbn. f_equal. now apply Hex.
    + destruct Hend as [(before & link' & o' & Hevs & Ho') Hmarked].
      split; [|exact Hmarked].
      exists (EvGet link o :: before), link', o'. split; [|exact Ho'].
      now rewrite Hevs.
  - intros link rest t i w e o Hf.
    exists [EvGet link o]. cbn [fst snd].
    split; [reflexivity|]. split; [now exists 1|].
    split. { rewrite page_texts_get_none by (intros resp d; congruence). reflexivity. }
    split; [constructor|]. split; [|constructor].
    now exists [], link, o.
  - intros link rest t i w resp d o Hf t' w1 Hm.
    exists [EvGet link o;
            EvGenerate (make_prompt t')
              (generate_content_oracle E (trace w1) (make_prompt t'))].
    cbn [fst snd].
    split. { unfold asked, log, w1, page_world. cbn [trace]. now rewrite <- app_assoc. }
    split; [now exists 1|].
    split. { rewrite (page_texts_get_ok link o resp d _ Hf). reflexivity. }
    split; [constructor|]. split; [reflexivity|]. split; [|discriminate].
    intros Hm'. unfold answers in Hm'. cbn in Hm'.
    fold (answer_in E w1 t') in Hm'. congruence.
  - intros link rest t i w resp d r o Hf t' w1 Hm
      (evs & Htr & [k Hk] & Hp & Hall & Hend).
    set (o2 := generate_content_oracle E (trace w1) (make_prompt t')).
    exists (EvGet link o :: EvGenerate (make_prompt t') o2 :: evs).
    assert (Hans : answers (EvGet link o :: EvGenerate (make_prompt t') o2 :: evs)
                   = answer_in E w1 t' :: answers evs) by reflexivity.
    split. { rewrite Htr. unfold asked, log, w1, page_world. cbn [trace].
             now rewrite <- !app_assoc. }
    split. { exists (S k). cbn. now rewrite <- Hk. }
    split. { rewrite (page_texts_get_ok link o resp d _ Hf).
             cbn [accumulate map]. fold t'.
             change (prompts (EvGet link o :: EvGenerate (make_prompt t') o2 :: evs))
               with (make_prompt t' :: prompts evs).
             rewrite Hp. reflexivity. }
    split.
    { rewrite Hans. destruct (answers evs) as [|a l] eqn:Ha.
      - constructor.
      - change (removelast (answer_in E w1 t' :: a :: l))
          with (answer_in E w1 t' :: removelast (a :: l)).
        constructor; [exact Hm | exact Hall]. }
    destruct (fst r) as [final | e].
    + destruct Hend as (Hlast & Hex & _).
      split; [rewrite Hans, last_cons; exact Hlast|]. split; [|discriminate].
      intros Hm'. cbn. f_equal. now apply Hex.
    + destruct Hend as [(before & link' & o' & Hevs & Ho') Hmarked].
      split.
      * exists (EvGet link o :: EvGenerate (make_prompt t') o2 :: before), link', o'.
        split; [|exact Ho']. now rewrite Hevs.
      * rewrite Hans. constructor; [exact Hm | exact Hmarked].
Qed.

Lemma answer_of_failed (o : result gen_response) :
  model_call_failed o = true -> answer_of o = [].
Proof. intros H. unfold answer_of. now rewrite H. Qed.

Lemma stops_on_empty_holds (links : list str) (t i : str) (w : world) :
  stops_on_empty w (expansion_loop E links t i w).
Proof.
  revert links t i w.
  apply (Runs.expansion_loop_ind E (fun _ _ _ w r => stops_on_empty w r)).
  - intros t i w. exists []. cbn [fst snd]. rewrite app_nil_r.
    split; [reflexivity|].
    intros before p o after Hevs _. destruct before; discriminate.
  - intros link rest t i w r o Hf (evs & Htr & Hstop).
    exists (EvGet link o :: evs).
    split. { rewrite Htr. cbn [log trace]. now rewrite <- app_assoc. }
    intros before p o' after Hevs Hempty.
    destruct before as [|b before]; [discriminate|].
    inversion Hevs as [[Hb Hrest]]. exact (Hstop _ _ _ _ Hrest Hempty).
  - intros link rest t i w e o Hf.
    exists [EvGet link o]. cbn [fst snd]. split; [reflexivity|].
    intros before p o' after Hevs _.
    destruct before as [|b before]; [discriminate|].
    inversion Hevs as [[Hb Hnil]]. destruct before; discriminate.
  - intros link rest t i w resp d o Hf t' w1 Hm.
    exists [EvGet link o;
            EvGenerate (make_prompt t')
              (generate_content_oracle E (trace w1) (make_prompt t'))].
    cbn [fst snd].
    split. { unfold asked, log, w1, page_world. cbn [trace]. now rewrite <- app_assoc. }
    intros before p o' after Hevs Hempty.
    destruct before as [|b [|b' before]]; try discriminate.
    + inversion Hevs; subst. split; [reflexivity|].
      f_equal. exact Hempty.
    + inversion Hevs as [[Hb Hb' Hnil]]. destruct before; discriminate.
  - intros link rest t i w resp d r o Hf t' w1 Hm (evs & Htr & Hstop).
    set (o2 := generate_content_oracle E (trace w1) (make_prompt t')).
    exists (EvGet link o :: EvGenerate (make_prompt t') o2 :: evs).
    split. { rewrite Htr. unfold asked, log, w1, page_world. cbn [trace].
             now rewrite <- !app_assoc. }
    intros before p o' after Hevs Hempty.
    destruct before as [|b [|b' before]]; try discriminate.
    + inversion Hevs; subst.
      assert (Ha : answer_in E w1 t' = []) by exact Hempty.
      rewrite Ha in Hm. discriminate.
    + inversion Hevs as [[Hb Hb' Hrest]]. exact (Hstop _ _ _ _ Hrest Hempty).
Qed.

End WithEnvironment.

End Loop.

(** ** The link filter *)

Module Links.

Lemma set_add_In (x y : str) (s : list str) :
  In y (set_add x s) <-> y = x \/ In y s.
Proof.
  unfold set_add. destruct (in_dec str_eq_dec x s) as [Hin | Hout].
  - split; [now right|]. intros [-> | H]; assumption.
  - rewrite in_app_iff. simpl. intuition congruence.
Qed.

Lemma set_add_NoDup (x : str) (s : list str) :
  NoDup s -> NoDup (set_add x s).
Proof.
  intros Hs. unfold set_add. destruct (in_dec str_eq_dec x s) as [Hin | Hout].
  - exact Hs.
  - apply NoDup_app; [exact Hs | repeat constructor; simpl; tauto |].
    intros y Hy [<- | []]. exact (Hout Hy).
Qed.

Lemma set_update_In (y : str) (xs s : list str) :
  In y (set_update s xs) <-> In y s \/ In y xs.
Proof.
  unfold set_update. revert s. induction xs as [|x xs IH]; intros s; simpl.
  - tauto.
  - rewrite IH, set_add_In. intuition congruence.
Qed.

Lemma set_update_NoDup (xs s : list str) :
  NoDup s -> NoDup (set_update s xs).
Proof.
  unfold set_update. revert s. induction xs as [|x xs IH]; intros s Hs; simpl.
  - exact Hs.
  - apply IH, set_add_NoDup, Hs.
Qed.





Lemma map_result_length {A B} (f : A -> result B) (l : list A) (ys : list B) :
  map_result f l = Ok ys -> List.length ys = List.length l.
Proof.
  revert ys. induction l as [|x l IH]; intros ys; simpl.
  - intros H. now injection H as <-.
  - destruct (f x); [|discriminate].
    destruct (map_result f l) as [ys0 | e]; [|discriminate].
    intros H. injection H as <-. simpl. now rewrite (IH ys0 eq_refl).
Qed.


Lemma map_result_raise {A B} (f : A -> result B) (l : list A) (e : exn) :
  map_result f l = Raise e -> exists x, In x l /\ f x = Raise e.
Proof.
  induction l as [|x l IH]; simpl; [discriminate|].
  destruct (f x) as [y | e'] eqn:Hx.
  - destruct (map_result f l) as [ys | e'']; [discriminate|].
    intros H. injection H as ->. destruct (IH eq_refl) as [x' [Hin Hx']].
    exists x'. auto.
  - intros H. injection H as ->. exists x. auto.
Qed.

Section WithEnvironment.

Variable E : environment.


End WithEnvironment.

End Links.




(** ** The orchestrator *)

Module Orchestrator.

Section WithEnvironment.

Variable E : environment.





(** The rows built so far name the URLs processed, in order; a raise ends
    the comprehension without rows. *)
Lemma output_data_rows (urls : list str) (w : world) (data : list row) (w' : world) :
  output_data E urls w = (Ok data, w') ->
  map Company_URL data = urls
  /\ Forall (fun r => exists info, Extracted_Information r = clean_text info) data.
Proof.
  revert w data w'. induction urls as [|url rest IH]; intros w data w'.
  - cbn. intros H. injection H as <- _. split; [reflexivity | constructor].
  - cbn [output_data]. unfold bind at 1.
    destruct (get_company_information E url w) as [[s | e] w1]; [|discriminate].
    unfold bind at 1.
    destruct (output_data E rest w1) as [[rows | e] w2] eqn:Hrest; [|discriminate].
    unfold ret. intros H. injection H as <- _.
    destruct (IH w1 rows w2 Hrest) as [Hmap Hall]. split.
    + cbn [map Company_URL]. now rewrite Hmap.
    + constructor; [now exists s | exact Hall].
Qed.


Lemma output_data_all_failed (urls : list str) (w : world) :
  (forall h u, fetched E (requests_get_oracle E h u) = Ok None) ->
  fst (output_data E urls w)
  = Ok (map (fun u => {| Company_URL := u; Extracted_Information := FAILED |}) urls).
Proof.
  intros Hdown. revert w. induction urls as [|url rest IH]; intros w.
  - reflexivity.
  - cbn [output_data]. unfold bind at 1.
    rewrite (Runs.gci_failed E url w (Hdown _ _)).
    unfold bind at 1. specialize (IH (log w (EvGet url (requests_get_oracle E (trace w) url)))).
    destruct (output_data E rest _) as [[rows | e] w2]; simpl in IH; [|discriminate].
    injection IH as ->. reflexivity.
Qed.

Lemma save_to_csv_run (data : list row) (filename : str) (w : world) :
  save_to_csv E data filename w
  = (Ok tt, log w (EvToCsv filename data (to_csv_oracle E (trace w) data))).
Proof.
  cbv [save_to_csv try_except to_csv bind get_trace emit raise ret log is_Exception].
  destruct (to_csv_oracle E (trace w) data); reflexivity.
Qed.

End WithEnvironment.


End Orchestrator.

(** C3, as it holds.  When the first request raises a [RequestException]
    or comes back with a status from 400 to 599, [get_company_information]
    returns the placeholder; the request is the only event of the run, so
    the model is not called and nothing is fetched again. *)
Theorem primary_fetch_failure_is_terminal
    (E : environment) (url : str) (w : world) :
  let o := requests_get_oracle E (trace w) url in
  match o with
  | Raise e => is_RequestException e = true
  | Ok resp => (400 <= status_code resp < 600)%N
  end ->
  exists w',
    get_company_information E url w = (Ok (lit "Failed to fetch content."), w')
    /\ trace w' = trace w ++ [EvGet url o]
    /\ heap w' = heap w.
Proof.
  intros o Hfail.
  assert (Hf : fetched E o = Ok None).
  { unfold fetched, error_status. destruct o as [resp | e].
    - destruct Hfail as [Hlo Hhi].
      apply N.leb_le in Hlo. apply N.ltb_lt in Hhi. now rewrite Hlo, Hhi.
    - now rewrite Hfail. }
  exists (log w (EvGet url o)). split; [|split; reflexivity].
  exact (Runs.gci_failed E url w Hf).
Qed.

Lemma primary_fetch_failure_is_terminal_witness :
  exists w',
    get_company_information (mk_env get_down gen_plain) apple w0
    = (Ok (lit "Failed to fetch content."), w')
    /\ trace w' = trace w0 ++ [EvGet apple (Raise (RequestException ConnectionError))]
    /\ heap w' = heap w0.
Proof.
  apply (primary_fetch_failure_is_terminal (mk_env get_down gen_plain) apple w0).
  reflexivity.
Defined.

(** C3, as stated, fails for a status that is not a success but lies
    outside 400 to 599: a response with status 304 is parsed and sent to
    the model, and the result is the model's answer, not the
    placeholder. *)
Lemma status_304_is_processed :
  let E := mk_env get_304 gen_plain in
  exists resp w',
    requests_get_oracle E (trace w0) apple = Ok resp
    /\ status_code resp = 304%N
    /\ ~ (200 <= status_code resp < 300)%N
    /\ get_company_information E apple w0
       = (Ok (lit "Founded 1999, HQ: Nowhere"), w')
    /\ lit "Founded 1999, HQ: Nowhere" <> lit "Failed to fetch content."
    /\ List.length (prompts (trace w')) = 1.
Proof.
  cbv zeta. do 2 eexists. repeat split; try reflexivity.
  - cbn. lia.
  - discriminate.
Qed.

(** C2.  When the first answer does not contain the marker,
    [get_company_information] returns it, and the run consists of the
    request for the primary page and one model call. *)
Theorem first_answer_without_marker
    (E : environment) (url : str) (w : world) (resp : http_response)
    (d : document) :
  let o := requests_get_oracle E (trace w) url in
  fetched E o = Ok (Some (resp, d)) ->
  let t := flattened d in
  let w1 := page_world w url o d in
  let o2 := generate_content_oracle E (trace w1) (make_prompt t) in
  contains MARKER (answer_of o2) = false ->
  exists w',
    get_company_information E url w = (Ok (answer_of o2), w')
    /\ trace w' = trace w ++ [EvGet url o; EvGenerate (make_prompt t) o2].
Proof.
  intros o Hf t w1 o2 Hm.
  exists (asked E w1 t). split.
  - rewrite (Runs.gci_fetched E url w resp d Hf).
    fold o t w1. unfold answer_in. fold o2. now rewrite Hm.
  - unfold asked, log, w1, page_world. cbn [trace]. now rewrite <- app_assoc.
Qed.

Lemma first_answer_without_marker_witness :
  exists w',
    get_company_information (mk_env get_ok gen_plain) apple w0
    = (Ok (lit "Founded 1999, HQ: Nowhere"), w')
    /\ List.length (trace w') = 2.
Proof.
  destruct (first_answer_without_marker (mk_env get_ok gen_plain) apple w0
              {| status_code := 200; text := body_link |} doc_link)
    as [w' [Hrun Htr]].
  - reflexivity.
  - reflexivity.
  - exists w'. split; [exact Hrun|]. rewrite Htr. reflexivity.
Defined.

(** The marker is matched as written: other capitalisation does not
    count. *)
Example marker_is_case_sensitive :
  contains MARKER (lit "HQ: Information Not Available") = true
  /\ contains MARKER (lit "HQ: information not available") = false.
Proof. split; reflexivity. Qed.




(** C10.  A failed model call yields the empty string, which does not
    contain the marker.  In every run of [get_company_information], a model
    call that gave the empty string is the last event of the run, and the
    run returns the empty string.  So after an empty first answer nothing
    is fetched, and an empty answer during the expansion ends it. *)
Theorem failed_model_call_ends_run
    (E : environment) (url : str) (w : world) :
  contains MARKER [] = false
  /\ (forall o, model_call_failed o = true -> answer_of o = [])
  /\ exists r w' evs,
       get_company_information E url w = (r, w')
       /\ trace w' = trace w ++ evs
       /\ forall before p o after,
            evs = before ++ EvGenerate p o :: after ->
            answer_of o = [] ->
            after = [] /\ r = Ok [].
Proof.
  split; [reflexivity|]. split; [exact Loop.answer_of_failed|].
  destruct (fetched E (requests_get_oracle E (trace w) url))
    as [[[resp d]|] | e] eqn:Hf.
  - set (o := requests_get_oracle E (trace w) url) in *.
    set (t := flattened d).
    set (w1 := page_world w url o d).
    set (o2 := generate_content_oracle E (trace w1) (make_prompt t)).
    assert (Htr2 : trace (asked E w1 t)
                   = trace w ++ [EvGet url o; EvGenerate (make_prompt t) o2]).
    { unfold asked, log, w1, page_world. cbn [trace]. now rewrite <- app_assoc. }
    rewrite (Runs.gci_fetched E url w resp d Hf). fold o t w1.
    destruct (contains MARKER (answer_in E w1 t)) eqn:Hm.
    + unfold bind. rewrite Runs.extract_relevant_links_run.
      destruct (map_result _ _) as [joined | e].
      * set (links := set_order E _).
        destruct (Loop.stops_on_empty_holds E links t (answer_in E w1 t) (asked E w1 t))
          as (evs & Htr & Hstop).
        exists (fst (expansion_loop E links t (answer_in E w1 t) (asked E w1 t))),
          (snd (expansion_loop E links t (answer_in E w1 t) (asked E w1 t))),
          (EvGet url o :: EvGenerate (make_prompt t) o2 :: evs).
        split; [now destruct (expansion_loop E links t _ _)|]. split.
        { rewrite Htr, Htr2. now rewrite <- app_assoc. }
        intros before p o' after Hevs Hempty.
        destruct before as [|b [|b' before]]; try discriminate.
        -- inversion Hevs; subst.
           assert (Ha : answer_in E w1 t = []) by exact Hempty.
           rewrite Ha in Hm. discriminate.
        -- inversion Hevs as [[Hb Hb' Hrest]]. exact (Hstop _ _ _ _ Hrest Hempty).
      * exists (Raise e), (asked E w1 t),
          [EvGet url o; EvGenerate (make_prompt t) o2].
        split; [reflexivity|]. split; [exact Htr2|].
        intros before p o' after Hevs Hempty.
        destruct before as [|b [|b' before]]; try discriminate.
        -- inversion Hevs; subst.
           assert (Ha : answer_in E w1 t = []) by exact Hempty.
           rewrite Ha in Hm. discriminate.
        -- inversion Hevs as [[Hb Hb' Hnil]]. destruct before; discriminate.
    + exists (Ok (answer_in E w1 t)), (asked E w1 t),
        [EvGet url o; EvGenerate (make_prompt t) o2].
      split; [reflexivity|]. split; [exact Htr2|].
      intros before p o' after Hevs Hempty.
      destruct before as [|b [|b' before]]; try discriminate.
      * inversion Hevs; subst. split; [reflexivity|]. f_equal. exact Hempty.
      * inversion Hevs as [[Hb Hb' Hnil]]. destruct before; discriminate.
  - rewrite (Runs.gci_failed E url w Hf).
    exists (Ok FAILED), (log w (EvGet url (requests_get_oracle E (trace w) url))),
      [EvGet url (requests_get_oracle E (trace w) url)].
    split; [reflexivity|]. split; [reflexivity|].
    intros before p o' after Hevs _.
    destruct before as [|b before]; [discriminate|].
    inversion Hevs as [[Hb Hnil]]. destruct before; discriminate.
  - rewrite (Runs.gci_escapes E url w e Hf).
    exists (Raise e), (log w (EvGet url (requests_get_oracle E (trace w) url))),
      [EvGet url (requests_get_oracle E (trace w) url)].
    split; [reflexivity|]. split; [reflexivity|].
    intros before p o' after Hevs _.
    destruct before as [|b before]; [discriminate|].
    inversion Hevs as [[Hb Hnil]]. destruct before; discriminate.
Qed.

(** Three runs: the first call fails; the first call returns an object
    that counts as false; the first call answers with the marker and the
    call for the first extra page fails. *)
Lemma failed_model_call_ends_run_witness :
  (exists w',
      get_company_information (mk_env get_ok gen_quota) nike w0 = (Ok [], w')
      /\ got_urls (trace w') = [nike])
  /\ (exists w',
         get_company_information (mk_env get_ok gen_falsy) nike w0 = (Ok [], w')
         /\ got_urls (trace w') = [nike])
  /\ (exists w',
         get_company_information (mk_env get_ok gen_marker_then_quota) nike w0
         = (Ok [], w')
         /\ got_urls (trace w') = [nike; lit "https://www.nike.com/about"]).
Proof.
  split; [|split].
  - destruct (failed_model_call_ends_run (mk_env get_ok gen_quota) nike w0)
      as (_ & _ & r & w' & evs & Hrun & Htr & Hstop).
    assert (Hc : get_company_information (mk_env get_ok gen_quota) nike w0
                 = (r, w')) by exact Hrun.
    vm_compute in Hc. injection Hc as Hr Hw'.
    exists w'. rewrite <- Hw' in Htr. cbn [trace] in Htr. cbn [w0 trace app] in Htr.
    destruct (Hstop [EvGet nike (get_ok [] nike)]
                (make_prompt (lit "text (/about)")) (Raise ResourceExhausted) [])
      as [_ Hempty].
    + rewrite <- Htr. vm_compute. reflexivity.
    + reflexivity.
    + rewrite Hempty in Hrun. split; [exact Hrun|].
      rewrite <- Hw'. reflexivity.
  - destruct (failed_model_call_ends_run (mk_env get_ok gen_falsy) nike w0)
      as (_ & _ & r & w' & evs & Hrun & Htr & Hstop).
    assert (Hc : get_company_information (mk_env get_ok gen_falsy) nike w0
                 = (r, w')) by exact Hrun.
    vm_compute in Hc. injection Hc as Hr Hw'.
    exists w'. rewrite <- Hw' in Htr. cbn [trace] in Htr. cbn [w0 trace app] in Htr.
    destruct (Hstop [EvGet nike (get_ok [] nike)]
                (make_prompt (lit "text (/about)")) (gen_falsy [] []) [])
      as [_ Hempty].
    + rewrite <- Htr. vm_compute. reflexivity.
    + reflexivity.
    + rewrite Hempty in Hrun. split; [exact Hrun|].
      rewrite <- Hw'. reflexivity.
  - destruct (failed_model_call_ends_run (mk_env get_ok gen_marker_then_quota) nike w0)
      as (_ & _ & r & w' & evs & Hrun & Htr & Hstop).
    assert (Hc : get_company_information (mk_env get_ok gen_marker_then_quota) nike w0
                 = (r, w')) by exact Hrun.
    vm_compute in Hc. injection Hc as Hr Hw'.
    exists w'. split; [|rewrite <- Hw'; reflexivity].
    rewrite <- Hr in Hrun. exact Hrun.
Defined.

(** C7.  Whatever the model call does, [call_gemini_api] returns a string
    and raises nothing; when the call fails (it raises, or reading the text
    of the response raises) the string is empty. *)
Theorem call_gemini_api_never_raises
    (E : environment) (cleaned_text : str) (w : world) :
  let o := generate_content_oracle E (trace w) (make_prompt cleaned_text) in
  call_gemini_api E cleaned_text w
  = (Ok (if model_call_failed o then [] else model_text o),
     log w (EvGenerate (make_prompt cleaned_text) o)).
Proof. exact (Runs.call_gemini_api_run E cleaned_text w). Qed.

(** Each kind of failure on its own. *)
Lemma call_gemini_api_failures (E : environment) (cleaned_text : str) (w : world) :
  let o := generate_content_oracle E (trace w) (make_prompt cleaned_text) in
  ((exists e, o = Raise e)
   \/ (exists e, o = Ok {| truthy := true; response_text := Raise e |})) ->
  fst (call_gemini_api E cleaned_text w) = Ok [].
Proof.
  intros o Hfail. rewrite Runs.call_gemini_api_run. fold o. cbn [fst].
  destruct Hfail as [[e ->] | [e ->]]; reflexivity.
Qed.




(** With the network down for every request, every company still has its
    row, holding the placeholder. *)
Lemma rows_when_everything_fails :
  fst (output_data (mk_env get_down gen_plain) [apple; nike] w0)
  = Ok [ {| Company_URL := apple;
            Extracted_Information := lit "Failed to fetch content." |};
         {| Company_URL := nike;
            Extracted_Information := lit "Failed to fetch content." |} ].
Proof. reflexivity. Qed.

(** ** Concrete runs *)

Example clean_text_example :
  clean_text (lit "  a " ++ [DQUOTE; 9%N; NL] ++ lit "b  c ") = lit "a ' b c".
Proof. reflexivity. Qed.

Example findall_urls_example :
  findall_urls (lit "xhttp://a.b/c'https://d httphttps://e< http:// https://")
  = [lit "http://a.b/c"; lit "https://d"; lit "https://e"].
Proof. reflexivity. Qed.

Example flattened_link_example :
  flattened doc_link = lit "text (/about)".
Proof. reflexivity. Qed.

(** A page is fetched, the model answers without the marker: the batch has
    one row with that answer. *)
Example single_company_example :
  fst (output_data (mk_env get_ok gen_plain) [apple] w0)
  = Ok [ {| Company_URL := apple;
            Extracted_Information := lit "Founded 1999, HQ: Nowhere" |} ].
Proof. reflexivity. Qed.
(** * Further properties *)

(** ** The raw-link scan *)

Module UrlFacts.

Lemma startswith_split (s p : str) :
  startswith s p = true -> s = p ++ skipn (List.length p) s.
Proof.
  revert s. induction p as [|c p IH]; intros s H; [reflexivity|].
  destruct s as [|c' s]; [discriminate|].
  simpl in H. apply andb_true_iff in H. destruct H as [Hc Hp].
  apply N.eqb_eq in Hc. subst c'. simpl. f_equal. now apply IH.
Qed.

Lemma startswith_length (s p : str) :
  startswith s p = true -> List.length p <= List.length s.
Proof.
  intros H. apply startswith_split in H.
  assert (Hl : List.length s = List.length (p ++ skipn (List.length p) s))
    by (f_equal; exact H).
  rewrite length_app in Hl. lia.
Qed.

Lemma startswith_app_iff (p a b : str) :
  startswith b a = true -> startswith (p ++ b) (p ++ a) = true.
Proof.
  intros H. induction p as [|c p IH]; [exact H|].
  simpl. now rewrite N.eqb_refl.
Qed.

Lemma take_while_prefix (p : char -> bool) (s : str) :
  startswith s (take_while p s) = true.
Proof.
  induction s as [|c r IH]; [reflexivity|].
  simpl. destruct (p c); [|reflexivity]. simpl. now rewrite N.eqb_refl.
Qed.

Lemma take_while_all (p : char -> bool) (s : str) :
  forallb p (take_while p s) = true.
Proof.
  induction s as [|c r IH]; [reflexivity|].
  simpl. destruct (p c) eqn:Hc; [|reflexivity]. simpl. now rewrite Hc.
Qed.

Lemma take_while_whole (p : char -> bool) (s : str) :
  forallb p s = true -> take_while p s = s.
Proof.
  induction s as [|c r IH]; [reflexivity|].
  simpl. intros H. apply andb_true_iff in H. destruct H as [Hc Hr].
  rewrite Hc. f_equal. now apply IH.
Qed.

Lemma skipn_scheme (scheme body : str) :
  skipn (List.length scheme) (scheme ++ body) = body.
Proof. induction scheme as [|c r IH]; [reflexivity | exact IH]. Qed.

(** A match tried with one scheme. *)
Lemma try_scheme (scheme s m : str) :
  (if startswith s scheme
   then match take_while url_char (skipn (List.length scheme) s) with
        | [] => None
        | body => Some (scheme ++ body)
        end
   else None) = Some m ->
  has_scheme scheme m = true /\ startswith s m = true.
Proof.
  destruct (startswith s scheme) eqn:Hs; [|discriminate].
  pose proof (take_while_prefix url_char (skipn (List.length scheme) s)) as Hpre.
  pose proof (take_while_all url_char (skipn (List.length scheme) s)) as Hall.
  destruct (take_while url_char (skipn (List.length scheme) s)) as [|b body];
    [discriminate|].
  intros H. injection H as <-. split.
  - unfold has_scheme. rewrite skipn_scheme, startswith_app, Hall. reflexivity.
  - rewrite (startswith_split s scheme Hs) at 1.
    now apply startswith_app_iff.
Qed.

Lemma match_here_sound (s m : str) :
  match_here s = Some m ->
  well_formed_url m = true /\ startswith s m = true.
Proof.
  unfold match_here, well_formed_url.
  destruct (if startswith s (lit "https://") then _ else None) as [m1|] eqn:H1.
  - intros H. injection H as <-.
    destruct (try_scheme _ _ _ H1) as [Hw Hp]. now rewrite Hw.
  - intros H2. destruct (try_scheme _ _ _ H2) as [Hw Hp].
    rewrite Hw. now rewrite orb_true_r.
Qed.

Lemma contains_later (sub s : str) (c : char) :
  contains sub s = true -> contains sub (c :: s) = true.
Proof. intros H. simpl. rewrite H. apply orb_true_r. Qed.

Lemma contains_prefix (sub s : str) :
  startswith s sub = true -> contains sub s = true.
Proof. intros H. destruct s; simpl; now rewrite H. Qed.

Lemma findall_from_sound (k : nat) (s m : str) :
  In m (findall_from k s) ->
  well_formed_url m = true /\ contains m s = true.
Proof.
  revert k. induction s as [|c r IH]; intros k; [intros []|].
  cbn [findall_from]. destruct k as [|k].
  - destruct (match_here (c :: r)) as [m'|] eqn:Hm.
    + intros [<- | Hin].
      * destruct (match_here_sound _ _ Hm) as [Hw Hp].
        split; [exact Hw | now apply contains_prefix].
      * destruct (IH _ Hin) as [Hw Hc]. split; [exact Hw | now apply contains_later].
    + intros Hin. destruct (IH _ Hin) as [Hw Hc].
      split; [exact Hw | now apply contains_later].
  - intros Hin. destruct (IH _ Hin) as [Hw Hc].
    split; [exact Hw | now apply contains_later].
Qed.

Lemma findall_from_budget (k : nat) (s : str) :
  List.length (concat (findall_from k s)) + k <= List.length s \/
  (List.length s < k /\ findall_from k s = []).
Proof.
  revert k. induction s as [|c r IH]; intros k.
  - destruct k; [left; simpl; lia | right; split; [simpl; lia | reflexivity]].
  - cbn [findall_from]. destruct k as [|k].
    + destruct (match_here (c :: r)) as [m|] eqn:Hm.
      * destruct (match_here_sound _ _ Hm) as [_ Hp].
        apply startswith_length in Hp. simpl in Hp.
        left. cbn [concat]. rewrite length_app.
        destruct (IH (List.length m - 1)) as [H | [H ->]]; simpl in *; lia.
      * destruct (IH 0) as [H | [H _]]; [left; simpl; lia | lia].
    + destruct (IH k) as [H | [H ->]].
      * left. simpl. lia.
      * right. split; [simpl; lia | reflexivity].
Qed.

Lemma findall_from_skip_all (k : nat) (s : str) :
  List.length s <= k -> findall_from k s = [].
Proof.
  revert k. induction s as [|c r IH]; intros k H; [reflexivity|].
  destruct k as [|k]; simpl in H; [lia|].
  cbn [findall_from]. apply IH. lia.
Qed.

Lemma has_scheme_split (scheme m : str) :
  has_scheme scheme m = true ->
  exists body, m = scheme ++ body /\ body <> [] /\ forallb url_char body = true.
Proof.
  unfold has_scheme. rewrite !andb_true_iff. intros [[Hs Hne] Hall].
  exists (skipn (List.length scheme) m). split; [now apply startswith_split|].
  split; [|exact Hall]. intros Hnil. now rewrite Hnil in Hne.
Qed.

Lemma match_here_whole (m : str) :
  well_formed_url m = true -> match_here m = Some m.
Proof.
  unfold well_formed_url. intros H. apply orb_true_iff in H.
  destruct H as [H | H]; apply has_scheme_split in H;
    destruct H as (body & -> & Hne & Hall); unfold match_here.
  - rewrite startswith_app, skipn_scheme, (take_while_whole _ _ Hall).
    destruct body; [congruence | reflexivity].
  - replace (startswith (lit "http://" ++ body) (lit "https://")) with false.
    + rewrite startswith_app, skipn_scheme, (take_while_whole _ _ Hall).
      destruct body; [congruence | reflexivity].
    + destruct body as [|b body]; [congruence|].
      vm_compute. destruct b; reflexivity.
Qed.

End UrlFacts.

(** X1.  Every raw link found in a response body is a piece of the body,
    starts with one of the two schemes, has at least one character after it
    and holds no whitespace, quote or angle bracket after the scheme. *)
Theorem findall_urls_sound (body m : str) :
  In m (findall_urls body) ->
  well_formed_url m = true /\ contains m body = true.
Proof. apply UrlFacts.findall_from_sound. Qed.

Lemma findall_urls_sound_witness :
  well_formed_url (lit "https://d") = true
  /\ contains (lit "https://d") (lit "x'https://d http://") = true.
Proof.
  apply (findall_urls_sound (lit "x'https://d http://") (lit "https://d")).
  vm_compute. left. reflexivity.
Defined.

(** X2.  The raw links do not overlap: together they are no longer than
    the body they were found in.  An empty body has none. *)
Theorem findall_urls_budget (body : str) :
  List.length (concat (findall_urls body)) <= List.length body
  /\ findall_urls [] = [].
Proof.
  split; [|reflexivity]. unfold findall_urls.
  destruct (UrlFacts.findall_from_budget 0 body) as [H | [H _]]; lia.
Qed.

(** X3.  Scanning a raw link again finds that link and nothing else. *)
Theorem findall_urls_rescan (body m : str) :
  In m (findall_urls body) -> findall_urls m = [m].
Proof.
  intros Hin. apply UrlFacts.findall_from_sound in Hin. destruct Hin as [Hw _].
  unfold findall_urls.
  pose proof (UrlFacts.match_here_whole m Hw) as Hm.
  destruct m as [|c r]; [discriminate|].
  cbn [findall_from]. rewrite Hm. f_equal.
  apply UrlFacts.findall_from_skip_all. simpl. lia.
Qed.

Lemma findall_urls_rescan_witness :
  findall_urls (lit "http://a.b/c") = [lit "http://a.b/c"].
Proof.
  apply (findall_urls_rescan (lit "xhttp://a.b/c'https://d") (lit "http://a.b/c")).
  vm_compute. left. reflexivity.
Defined.

(** ** More on [clean_text] *)

Module CleanFacts.

Lemma keep_app (a b : str) : keep_non_ws (a ++ b) = keep_non_ws a ++ keep_non_ws b.
Proof. apply filter_app. Qed.

Lemma keep_all_ws (q : str) : forallb isspace q = true -> keep_non_ws q = [].
Proof.
  induction q as [|c q IH]; [reflexivity|].
  simpl. intros H. apply andb_true_iff in H. destruct H as [Hc Hq].
  rewrite Hc. simpl. now apply IH.
Qed.

Lemma keep_nil_all_ws (s : str) : keep_non_ws s = [] -> forallb isspace s = true.
Proof.
  induction s as [|c r IH]; [reflexivity|].
  simpl. destruct (isspace c); simpl; [exact IH | discriminate].
Qed.

Lemma keep_lstrip (s : str) : keep_non_ws (lstrip s) = keep_non_ws s.
Proof.
  destruct (lstrip_split s) as [q [Hq Hws]].
  rewrite Hq at 2. now rewrite keep_app, (keep_all_ws q Hws).
Qed.

Lemma keep_rstrip (s : str) : keep_non_ws (rstrip s) = keep_non_ws s.
Proof.
  destruct (rstrip_split s) as [q [Hq Hws]].
  rewrite Hq at 2. now rewrite keep_app, (keep_all_ws q Hws), app_nil_r.
Qed.

Lemma keep_strip (s : str) : keep_non_ws (strip s) = keep_non_ws s.
Proof. unfold strip. now rewrite keep_rstrip, keep_lstrip. Qed.

Lemma keep_sub_ws (b : bool) (s : str) :
  keep_non_ws (sub_ws_from b s) = keep_non_ws s.
Proof.
  revert b. induction s as [|c r IH]; intros b; [reflexivity|].
  simpl. destruct (isspace c) eqn:Hc; simpl.
  - destruct b; simpl; apply IH.
  - rewrite Hc. simpl. f_equal. apply IH.
Qed.

Lemma keep_replace_newline (s : str) :
  keep_non_ws (replace_char NL SPACE s) = keep_non_ws s.
Proof.
  induction s as [|c r IH]; [reflexivity|].
  simpl. destruct (N.eqb_spec c NL) as [-> | Hc]; simpl.
  - exact IH.
  - destruct (isspace c); simpl; now rewrite IH.
Qed.

Lemma keep_replace_quote (s : str) :
  keep_non_ws (replace_char DQUOTE SQUOTE s)
  = replace_char DQUOTE SQUOTE (keep_non_ws s).
Proof.
  induction s as [|c r IH]; [reflexivity|].
  simpl. destruct (N.eqb_spec c DQUOTE) as [-> | Hc]; simpl.
  - now rewrite IH.
  - destruct (isspace c); simpl; rewrite IH; [reflexivity|].
    destruct (N.eqb_spec c DQUOTE); [contradiction | reflexivity].
Qed.

Lemma lstrip_length (s : str) : List.length (lstrip s) <= List.length s.
Proof.
  induction s as [|c r IH]; simpl; [lia|].
  destruct (isspace c); simpl; lia.
Qed.

Lemma rstrip_length (s : str) : List.length (rstrip s) <= List.length s.
Proof.
  unfold rstrip. rewrite length_rev.
  pose proof (lstrip_length (rev s)) as H. now rewrite length_rev in H.
Qed.

Lemma sub_ws_length (b : bool) (s : str) :
  List.length (sub_ws_from b s) <= List.length s.
Proof.
  revert b. induction s as [|c r IH]; intros b; simpl; [lia|].
  pose proof (IH true) as Ht. pose proof (IH false) as Hf.
  destruct (isspace c); [destruct b|]; simpl; lia.
Qed.

(** A string that [lstrip] leaves alone does not start with whitespace. *)
Lemma lstrip_fixed_head (c : char) (r : str) :
  lstrip (c :: r) = c :: r -> isspace c = false.
Proof.
  simpl. destruct (isspace c); [|reflexivity].
  intros H. pose proof (lstrip_length r) as Hl. rewrite H in Hl. simpl in Hl. lia.
Qed.

Lemma strip_head (s : str) (c : char) (r : str) :
  strip s = c :: r -> isspace c = false.
Proof.
  intros H. apply lstrip_fixed_head with (r := r).
  rewrite <- H. unfold strip.
  destruct (lstrip_shape s) as [Hnil | [c' [r' [Hcr Hc']]]].
  - rewrite Hnil. reflexivity.
  - rewrite Hcr.
    destruct (rstrip_split (c' :: r')) as [q [Hq _]].
    destruct (rstrip (c' :: r')) as [|c'' r''] eqn:Hr; [reflexivity|].
    simpl in Hq. injection Hq as Hc'' _. subst c''.
    now apply lstrip_head.
Qed.

Lemma strip_last (s p : str) (c : char) :
  strip s = p ++ [c] -> isspace c = false.
Proof.
  unfold strip, rstrip. intros H.
  assert (Hrev : lstrip (rev (lstrip s)) = c :: rev p).
  { rewrite <- (rev_involutive (lstrip (rev (lstrip s)))), H.
    rewrite rev_app_distr. reflexivity. }
  apply lstrip_fixed_head with (r := rev p).
  rewrite <- Hrev. apply lstrip_fixed.
Qed.

Lemma clean_text_fixed (s : str) : clean_text (clean_text s) = clean_text s.
Proof.
  pose proof (CleanText.clean_text_tidy s) as Ht.
  pose proof (CleanText.tidy_no_dquote _ _ Ht) as Hq.
  pose proof (CleanText.tidy_no_newline _ _ Ht) as Hn.
  unfold clean_text at 1.
  rewrite (CleanText.replace_absent _ _ _ Hq), (CleanText.replace_absent _ _ _ Hn).
  unfold re_sub_ws. rewrite (CleanText.sub_ws_tidy _ _ Ht).
  unfold clean_text. apply strip_fixed.
Qed.

Lemma clean_text_keeps (s : str) :
  keep_non_ws (clean_text s) = replace_char DQUOTE SQUOTE (keep_non_ws s).
Proof.
  unfold clean_text, re_sub_ws.
  now rewrite keep_strip, keep_sub_ws, keep_replace_newline, keep_replace_quote.
Qed.

End CleanFacts.

(** X4.  [clean_text] touches whitespace and double quotes only: the
    characters of the result that are not whitespace are those of the
    input, in the same order, with every double quote turned into a single
    quote. *)
Theorem clean_text_keeps_characters (s : str) :
  keep_non_ws (clean_text s) = replace_char DQUOTE SQUOTE (keep_non_ws s).
Proof.
  exact (CleanFacts.clean_text_keeps s).
Qed.

(** X5.  A cleaned string neither starts nor ends with whitespace, and it
    is never longer than the input. *)
Theorem clean_text_trimmed (s : str) :
  (forall c r, clean_text s = c :: r -> isspace c = false)
  /\ (forall p c, clean_text s = p ++ [c] -> isspace c = false)
  /\ List.length (clean_text s) <= List.length s.
Proof.
  split; [|split].
  - intros c r. apply CleanFacts.strip_head.
  - intros p c. apply CleanFacts.strip_last.
  - unfold clean_text, strip, re_sub_ws.
    pose proof (CleanFacts.rstrip_length
                  (lstrip (sub_ws_from false
                     (replace_char NL SPACE (replace_char DQUOTE SQUOTE s))))) as H1.
    pose proof (CleanFacts.lstrip_length
                  (sub_ws_from false
                     (replace_char NL SPACE (replace_char DQUOTE SQUOTE s)))) as H2.
    pose proof (CleanFacts.sub_ws_length false
                  (replace_char NL SPACE (replace_char DQUOTE SQUOTE s))) as H3.
    unfold replace_char in *. rewrite !length_map in H3.
    exact (Nat.le_trans _ _ _ H1 (Nat.le_trans _ _ _ H2 H3)).
Qed.

Lemma clean_text_trimmed_witness :
  isspace 97%N = false.
Proof.
  apply (proj1 (clean_text_trimmed (lit "  a b ")) 97%N (lit " b")).
  reflexivity.
Defined.

(** X6.  The cleaned string is empty exactly when the input is empty or
    all whitespace. *)
Theorem clean_text_empty_iff (s : str) :
  clean_text s = [] <-> forallb isspace s = true.
Proof.
  split.
  - intros H.
    pose proof (CleanFacts.clean_text_keeps s) as Hk.
    rewrite H in Hk. apply CleanFacts.keep_nil_all_ws.
    destruct (keep_non_ws s); [reflexivity | discriminate].
  - intros H.
    destruct (clean_text s) as [|c r] eqn:Hc; [reflexivity|].
    exfalso.
    pose proof (CleanFacts.strip_head _ c r Hc) as Hhead.
    pose proof (CleanFacts.clean_text_keeps s) as Hk.
    rewrite Hc, (CleanFacts.keep_all_ws s H) in Hk.
    simpl in Hk. rewrite Hhead in Hk. discriminate.
Qed.

(** ** More on [extract_text] *)

Module TextFacts.

Lemma tag_names_insert_node (n : node) :
  flat_map tag_names_node (insert_after_node n) = tag_names_node n.
Proof.
  induction n as [s | s | name attrs contents IH] using SoupFacts.node_ind';
    [reflexivity | reflexivity |].
  assert (Hc : flat_map tag_names_node (flat_map insert_after_node contents)
               = flat_map tag_names_node contents).
  { rewrite SoupFacts.flat_map_flat_map. now apply SoupFacts.flat_map_ext_on. }
  cbn [insert_after_node].
  destruct (str_eqb name (lit "a"));
    [destruct (get_attr (lit "href") attrs)|];
    cbn [flat_map tag_names_node app]; rewrite Hc, ?app_nil_r; reflexivity.
Qed.

Lemma tag_names_insert (d : document) :
  tag_names (insert_after_links d) = tag_names d.
Proof.
  unfold tag_names, insert_after_links.
  rewrite SoupFacts.flat_map_flat_map. apply SoupFacts.flat_map_ext_on.
  rewrite Forall_forall. intros x _. apply tag_names_insert_node.
Qed.

Lemma Forall_flat_map {A B} (P : B -> Prop) (f : A -> list B) (l : list A) :
  Forall (fun x => Forall P (f x)) l -> Forall P (flat_map f l).
Proof.
  induction 1 as [|x l Hx _ IH]; simpl; [constructor|].
  apply Forall_app. now split.
Qed.

Lemma tag_names_decompose_node (names : list str) (n : node) :
  Forall (fun nm => name_in names nm = false)
    (flat_map tag_names_node (decompose_node names n)).
Proof.
  induction n as [s | s | name attrs contents IH] using SoupFacts.node_ind';
    try (simpl; constructor).
  cbn [decompose_node]. destruct (name_in names name) eqn:Hn; [constructor|].
  cbn [flat_map tag_names_node]. rewrite app_nil_r.
  constructor; [exact Hn|].
  rewrite SoupFacts.flat_map_flat_map. now apply Forall_flat_map.
Qed.

Lemma tag_names_decompose (names : list str) (d : document) :
  Forall (fun nm => name_in names nm = false) (tag_names (decompose_all names d)).
Proof.
  unfold tag_names, decompose_all. rewrite SoupFacts.flat_map_flat_map.
  apply Forall_flat_map. rewrite Forall_forall. intros x _.
  apply tag_names_decompose_node.
Qed.

(** Where no element carries one of the names, nothing is removed. *)
Lemma decompose_node_id (names : list str) (n : node) :
  Forall (fun nm => name_in names nm = false) (tag_names_node n) ->
  decompose_node names n = [n].
Proof.
  induction n as [s | s | name attrs contents IH] using SoupFacts.node_ind';
    [reflexivity | reflexivity |].
  cbn [tag_names_node decompose_node]. intros H.
  inversion H as [|x l Hn Hbelow]; subst. rewrite Hn.
  do 2 f_equal. apply SoupFacts.flat_map_id_on.
  rewrite Forall_forall in *. intros x Hx. apply (IH x Hx).
  rewrite Forall_forall. intros nm Hnm. apply Hbelow.
  apply in_flat_map. now exists x.
Qed.

Lemma decompose_all_id (names : list str) (d : document) :
  Forall (fun nm => name_in names nm = false) (tag_names d) ->
  decompose_all names d = d.
Proof.
  intros H. apply SoupFacts.flat_map_id_on.
  rewrite Forall_forall in *. intros x Hx. apply decompose_node_id.
  rewrite Forall_forall. intros nm Hnm. apply H.
  apply in_flat_map. now exists x.
Qed.

Lemma set_nth_same {A} (i : nat) (def : A) (l : list A) :
  set_nth i (nth i l def) l = l.
Proof.
  revert i. induction l as [|h t IH]; intros [|j]; simpl; try reflexivity.
  now rewrite IH.
Qed.

(** One new string per hyperlink. *)
Lemma strings_insert_node (n : node) :
  List.length (flat_map strings_node (insert_after_node n))
  = List.length (strings_node n) + List.length (anchor_hrefs_node n).
Proof.
  induction n as [s | s | name attrs contents IH] using SoupFacts.node_ind';
    [reflexivity | reflexivity |].
  assert (Hc : List.length (flat_map strings_node (flat_map insert_after_node contents))
               = List.length (flat_map strings_node contents)
                 + List.length (flat_map anchor_hrefs_node contents)).
  { clear name attrs. induction IH as [|x l Hx _ IHl]; [reflexivity|].
    cbn [flat_map]. rewrite flat_map_app, !length_app, Hx, IHl. lia. }
  cbn [insert_after_node anchor_hrefs_node strings_node].
  destruct (str_eqb name (lit "a"));
    [destruct (get_attr (lit "href") attrs)|];
    cbn [flat_map strings_node app]; rewrite ?app_nil_r, ?length_app, Hc;
    simpl; lia.
Qed.

Lemma note_in_strings_node (n : node) (href : str) :
  In href (anchor_hrefs_node n) ->
  In (link_note href) (flat_map strings_node (insert_after_node n)).
Proof.
  induction n as [s | s | name attrs contents IH] using SoupFacts.node_ind';
    [intros [] | intros [] |].
  cbn [anchor_hrefs_node insert_after_node]. rewrite in_app_iff.
  intros [Hhere | Hbelow].
  - destruct (str_eqb name (lit "a")); [|destruct Hhere].
    destruct (get_attr (lit "href") attrs) as [h|]; [|destruct Hhere].
    destruct Hhere as [<- | []].
    cbn [flat_map strings_node]. rewrite !in_app_iff. right. left. now left.
  - assert (Hin : In (link_note href)
                    (flat_map strings_node (flat_map insert_after_node contents))).
    { apply in_flat_map in Hbelow. destruct Hbelow as [x [Hx Hh]].
      rewrite Forall_forall in IH. specialize (IH x Hx Hh).
      rewrite SoupFacts.flat_map_flat_map. apply in_flat_map. now exists x. }
    destruct (str_eqb name (lit "a"));
      [destruct (get_attr (lit "href") attrs)|];
      cbn [flat_map strings_node]; rewrite !in_app_iff; now left.
Qed.

Lemma lstrip_nonspace_app (p z : str) :
  p <> [] -> lstrip p = p -> lstrip (p ++ z) = p ++ z.
Proof.
  destruct p as [|c r]; [congruence|]. intros _ H.
  apply CleanFacts.lstrip_fixed_head in H. simpl. now rewrite H.
Qed.

Lemma strip_lstrip_fixed (x : str) : lstrip (strip x) = strip x.
Proof.
  destruct (strip x) as [|c r] eqn:H; [reflexivity|].
  apply lstrip_head. exact (CleanFacts.strip_head x c r H).
Qed.

Lemma strip_rev_fixed (x : str) : lstrip (rev (strip x)) = rev (strip x).
Proof.
  unfold strip, rstrip. rewrite rev_involutive. apply lstrip_fixed.
Qed.

(** Joined parts that are trimmed and not empty give a trimmed string. *)
Lemma join_trimmed (parts : list str) :
  Forall (fun p => p <> [] /\ lstrip p = p /\ lstrip (rev p) = rev p) parts ->
  lstrip (join [SPACE] parts) = join [SPACE] parts
  /\ lstrip (rev (join [SPACE] parts)) = rev (join [SPACE] parts)
  /\ (parts <> [] -> join [SPACE] parts <> []).
Proof.
  induction 1 as [|p ps (Hne & Hl & Hr) _ (IHl & IHr & IHne)].
  - split; [reflexivity|]. split; [reflexivity|]. intros H. exfalso. now apply H.
  - destruct ps as [|q ps].
    + simpl. split; [exact Hl|]. split; [exact Hr|]. intros _. exact Hne.
    + change (join [SPACE] (p :: q :: ps)) with (p ++ [SPACE] ++ join [SPACE] (q :: ps)).
      split; [|split].
      * now apply lstrip_nonspace_app.
      * rewrite !rev_app_distr, <- app_assoc.
        apply lstrip_nonspace_app; [|exact IHr].
        intros Hnil. apply (IHne ltac:(discriminate)).
        rewrite <- (rev_involutive (join [SPACE] (q :: ps))), Hnil. reflexivity.
      * intros _ Hnil. apply app_eq_nil in Hnil. tauto.
Qed.

Lemma stripped_parts_trimmed (l : list str) :
  Forall (fun p => p <> [] /\ lstrip p = p /\ lstrip (rev p) = rev p)
    (filter nonempty (map strip l)).
Proof.
  rewrite Forall_forall. intros p Hp. apply filter_In in Hp.
  destruct Hp as [Hin Hne]. apply in_map_iff in Hin. destruct Hin as [x [<- _]].
  split; [|split].
  - intros Hnil. rewrite Hnil in Hne. discriminate.
  - apply strip_lstrip_fixed.
  - apply strip_rev_fixed.
Qed.

Lemma get_text_trimmed (d : document) :
  lstrip (get_text d) = get_text d /\ lstrip (rev (get_text d)) = rev (get_text d).
Proof.
  destruct (join_trimmed _ (stripped_parts_trimmed (flat_map strings_node d)))
    as (Hl & Hr & _).
  split; assumption.
Qed.

End TextFacts.

(** X7.  After [extract_text] the document holds no [script] and no
    [style] element at any depth, and its other elements are those it had
    outside the removed ones. *)
Theorem extract_text_removes_scripts (soup : soup_ref) (w : world) :
  soup < List.length (heap w) ->
  exists t w',
    extract_text soup w = (Ok t, w')
    /\ Forall (fun name => name_in SCRIPT_STYLE name = false)
         (tag_names (nth soup (heap w') []))
    /\ tag_names (nth soup (heap w') [])
       = tag_names (decompose_all SCRIPT_STYLE (nth soup (heap w) [])).
Proof.
  intros Hvalid. rewrite Store.extract_text_run by exact Hvalid.
  do 2 eexists. split; [reflexivity|]. cbn [heap].
  rewrite Store.nth_set_nth by exact Hvalid.
  unfold normalized. rewrite TextFacts.tag_names_insert.
  split; [apply TextFacts.tag_names_decompose | reflexivity].
Qed.

Lemma extract_text_removes_scripts_witness :
  exists t w',
    extract_text 0 {| heap := [doc_script]; trace := [] |} = (Ok t, w')
    /\ tag_names (nth 0 (heap w') []) = [lit "a"].
Proof.
  destruct (extract_text_removes_scripts 0 {| heap := [doc_script]; trace := [] |})
    as (t & w' & Hrun & _ & Hnames).
  - simpl. lia.
  - exists t, w'. split; [exact Hrun|]. rewrite Hnames. reflexivity.
Defined.

(** X8.  The insertion pass of [extract_text] adds exactly one string per
    hyperlink with an [href], and that string is the note for its
    destination. *)
Theorem one_note_per_link (d : document) :
  List.length (flat_map strings_node (insert_after_links d))
  = List.length (flat_map strings_node d) + List.length (anchor_hrefs d)
  /\ forall href,
       In href (anchor_hrefs d) ->
       In (link_note href) (flat_map strings_node (insert_after_links d)).
Proof.
  split.
  - unfold insert_after_links, anchor_hrefs.
    induction d as [|n d IH]; [reflexivity|].
    cbn [flat_map]. rewrite flat_map_app, !length_app,
      TextFacts.strings_insert_node, IH. lia.
  - intros href Hin. unfold anchor_hrefs in Hin.
    apply in_flat_map in Hin. destruct Hin as [n [Hn Hh]].
    unfold insert_after_links. rewrite SoupFacts.flat_map_flat_map.
    apply in_flat_map. exists n. split; [exact Hn|].
    now apply TextFacts.note_in_strings_node.
Qed.

(** X9.  On a document without [script], [style] and hyperlinks with an
    [href], [extract_text] changes nothing: it returns the text of the
    document and leaves the world as it was. *)
Theorem extract_text_plain_document (soup : soup_ref) (w : world) :
  soup < List.length (heap w) ->
  Forall (fun name => name_in SCRIPT_STYLE name = false)
    (tag_names (nth soup (heap w) [])) ->
  anchor_hrefs (nth soup (heap w) []) = [] ->
  extract_text soup w = (Ok (get_text (nth soup (heap w) [])), w).
Proof.
  intros Hvalid Hplain Hlinks.
  rewrite Store.extract_text_run by exact Hvalid.
  assert (Hn : normalized (nth soup (heap w) []) = nth soup (heap w) []).
  { unfold normalized. rewrite (TextFacts.decompose_all_id _ _ Hplain).
    now apply SoupFacts.insert_after_links_id. }
  unfold flattened. rewrite Hn, TextFacts.set_nth_same.
  destruct w. reflexivity.
Qed.

Lemma extract_text_plain_document_witness :
  extract_text 0 w_plain = (Ok (lit "Founded in 1999"), w_plain).
Proof.
  apply (extract_text_plain_document 0 w_plain).
  - simpl. lia.
  - repeat constructor.
  - reflexivity.
Defined.

(** X10.  The text [extract_text] returns neither starts nor ends with
    whitespace, whatever the document. *)
Theorem extract_text_trimmed (soup : soup_ref) (w : world) :
  soup < List.length (heap w) ->
  exists t w',
    extract_text soup w = (Ok t, w')
    /\ (forall c r, t = c :: r -> isspace c = false)
    /\ (forall p c, t = p ++ [c] -> isspace c = false).
Proof.
  intros Hvalid. rewrite Store.extract_text_run by exact Hvalid.
  do 2 eexists. split; [reflexivity|].
  destruct (TextFacts.get_text_trimmed (normalized (nth soup (heap w) [])))
    as [Hl Hr].
  fold (flattened (nth soup (heap w) [])) in Hl, Hr.
  split.
  - intros c r Ht. rewrite Ht in Hl. exact (CleanFacts.lstrip_fixed_head c r Hl).
  - intros p c Ht. rewrite Ht, rev_app_distr in Hr.
    exact (CleanFacts.lstrip_fixed_head c (rev p) Hr).
Qed.

Lemma extract_text_trimmed_witness :
  exists t w',
    extract_text 0 w_plain = (Ok t, w')
    /\ (forall c r, t = c :: r -> isspace c = false).
Proof.
  destruct (extract_text_trimmed 0 w_plain) as (t & w' & Hrun & Hhead & _).
  - simpl. lia.
  - exists t, w'. split; [exact Hrun | exact Hhead].
Defined.

(** ** The prompt *)

(** X11.  The prompt carries the whole text, unshortened, between the fixed
    head and tail, so two prompts are equal only for equal texts. *)
Theorem make_prompt_faithful (t1 t2 : str) :
  (make_prompt t1 = make_prompt t2 <-> t1 = t2)
  /\ contains t1 (make_prompt t1) = true
  /\ List.length (make_prompt t1)
     = List.length PROMPT_HEAD + List.length t1 + List.length PROMPT_TAIL.
Proof.
  split; [|split].
  - split; [|now intros ->].
    unfold make_prompt. intros H.
    apply app_inv_head in H. now apply app_inv_tail in H.
  - apply contains_intro.
  - unfold make_prompt. rewrite !length_app. lia.
Qed.

(** ** [fetch_content] *)

(** X12.  [fetch_content] makes one request.  When the request raises a
    [RequestException] or the status is between 400 and 599 it returns
    nothing and stores nothing.  When the request raises another exception,
    or the parser raises, that exception leaves [fetch_content] and nothing
    is stored.  Otherwise it returns a fresh reference to the parsed body
    together with the raw links of the body.  Documents stored before are
    not touched. *)
Theorem fetch_content_outcome (E : environment) (url : str) (w : world) :
  let o := requests_get_oracle E (trace w) url in
  exists r w',
    fetch_content E url w = (r, w')
    /\ trace w' = trace w ++ [EvGet url o]
    /\ match r with
       | Ok None =>
           heap w' = heap w
           /\ match o with
              | Raise e => is_RequestException e = true
              | Ok resp => (400 <= status_code resp < 600)%N
              end
       | Ok (Some (soup, js_links)) =>
           exists resp d,
             o = Ok resp
             /\ ~ (400 <= status_code resp < 600)%N
             /\ html_parser E (text resp) = Ok d
             /\ soup = List.length (heap w)
             /\ heap w' = heap w ++ [d]
             /\ js_links = findall_urls (text resp)
       | Raise e =>
           heap w' = heap w
           /\ ((o = Raise e /\ is_RequestException e = false)
               \/ exists resp,
                    o = Ok resp
                    /\ ~ (400 <= status_code resp < 600)%N
                    /\ html_parser E (text resp) = Raise e)
       end.
Proof.
  intros o.
  assert (Hstatus : forall resp,
             error_status resp = false -> ~ (400 <= status_code resp < 600)%N).
  { intros resp Hs [Hlo Hhi]. unfold error_status in Hs.
    apply N.leb_le in Hlo. apply N.ltb_lt in Hhi.
    rewrite Hlo, Hhi in Hs. discriminate. }
  destruct (fetched E o) as [[[resp d]|] | e] eqn:Hf.
  - rewrite (Runs.fetch_content_ok E url w resp d Hf). fold o.
    do 2 eexists. split; [reflexivity|]. split; [reflexivity|].
    exists resp, d. cbn [heap].
    unfold fetched in Hf. destruct o as [resp' | e']; [|destruct (is_RequestException e'); discriminate].
    destruct (error_status resp') eqn:Hs; [discriminate|].
    destruct (html_parser E (text resp')) as [d' | e'] eqn:Hp; [|discriminate].
    injection Hf as -> ->.
    split; [reflexivity|]. split; [now apply Hstatus|]. split; [exact Hp|].
    repeat split.
  - rewrite (Runs.fetch_content_failed E url w Hf). fold o.
    do 2 eexists. split; [reflexivity|]. split; [reflexivity|].
    split; [reflexivity|].
    unfold fetched, error_status in Hf. destruct o as [resp | e].
    + destruct ((400 <=? status_code resp) && (status_code resp <? 600))%N eqn:Hs.
      * apply andb_true_iff in Hs. destruct Hs as [Hlo Hhi].
        apply N.leb_le in Hlo. apply N.ltb_lt in Hhi. now split.
      * destruct (html_parser E (text resp)); discriminate.
    + destruct (is_RequestException e); [reflexivity | discriminate].
  - rewrite (Runs.fetch_content_escapes E url w e Hf). fold o.
    do 2 eexists. split; [reflexivity|]. split; [reflexivity|].
    split; [reflexivity|].
    unfold fetched in Hf. destruct o as [resp | e'].
    + right. exists resp.
      destruct (error_status resp) eqn:Hs; [discriminate|].
      destruct (html_parser E (text resp)) as [d | e'] eqn:Hp; [discriminate|].
      injection Hf as ->.
      split; [reflexivity|]. split; [now apply Hstatus | reflexivity].
    + left. destruct (is_RequestException e') eqn:Hr; [discriminate|].
      injection Hf as ->. now split.
Qed.

(** ** More on the link filter *)

Module LinkFacts.

Lemma filter_length {A} (f : A -> bool) (l : list A) :
  List.length (filter f l) <= List.length l.
Proof.
  induction l as [|x l IH]; simpl; [lia|]. destruct (f x); simpl; lia.
Qed.

(** The filter reads the document only through its hyperlinks. *)
Lemma links_depend_on_hrefs (E : environment) (soup : soup_ref)
    (js_links : list str) (base_url url : str) (w1 w2 : world) :
  anchor_hrefs (nth soup (heap w1) []) = anchor_hrefs (nth soup (heap w2) []) ->
  fst (extract_relevant_links E soup js_links base_url url w1)
  = fst (extract_relevant_links E soup js_links base_url url w2).
Proof.
  intros H. rewrite !Runs.extract_relevant_links_run. cbn [fst].
  now rewrite H.
Qed.

End LinkFacts.

(** X13.  [extract_relevant_links] leaves the world as it is, whether it
    returns or raises; when it returns, it returns at most as many links as
    the document has hyperlinks with an [href] plus the number of raw
    links. *)
Theorem extract_relevant_links_bound
    (E : environment) (soup : soup_ref) (js_links : list str)
    (base_url url : str) (w : world) :
  set_order_ok E ->
  snd (extract_relevant_links E soup js_links base_url url w) = w
  /\ forall links,
       fst (extract_relevant_links E soup js_links base_url url w) = Ok links ->
       List.length links
       <= List.length (anchor_hrefs (nth soup (heap w) [])) + List.length js_links.
Proof.
  intros Horder. rewrite Runs.extract_relevant_links_run. cbn [fst snd].
  split; [reflexivity|].
  set (keywords := dict_get COMPANY_KEYWORDS url []).
  set (hrefs := filter (fun href => any_keyword_in keywords (lower E href))
                  (anchor_hrefs (nth soup (heap w) []))).
  set (B := filter (fun link => any_keyword_in keywords (lower E link)) js_links).
  destruct (map_result (urljoin E base_url) hrefs) as [A | e] eqn:HA;
    [|discriminate].
  intros links Hlinks. injection Hlinks as <-.
  assert (Hnd : NoDup (set_update (set_update [] A) B))
    by (apply Links.set_update_NoDup, Links.set_update_NoDup; constructor).
  rewrite (Permutation_length (Horder _ Hnd)).
  assert (Hincl : incl (set_update (set_update [] A) B) (A ++ B)).
  { intros y Hy. apply Links.set_update_In in Hy. rewrite in_app_iff.
    destruct Hy as [Hy | Hy]; [left | now right].
    apply Links.set_update_In in Hy. destruct Hy as [[] | Hy]. exact Hy. }
  apply (NoDup_incl_length Hnd) in Hincl.
  rewrite length_app, (Links.map_result_length _ _ _ HA) in Hincl.
  pose proof (LinkFacts.filter_length
                (fun href => any_keyword_in keywords (lower E href))
                (anchor_hrefs (nth soup (heap w) []))) as Hh.
  pose proof (LinkFacts.filter_length
                (fun link => any_keyword_in keywords (lower E link)) js_links) as Hb.
  exact (Nat.le_trans _ _ _ Hincl (Nat.add_le_mono _ _ _ _ Hh Hb)).
Qed.

Lemma extract_relevant_links_bound_witness :
  snd (extract_relevant_links (mk_env get_ok gen_plain) 0
         [lit "https://www.nike.com/about"] nike nike w_link) = w_link
  /\ forall links,
       fst (extract_relevant_links (mk_env get_ok gen_plain) 0
              [lit "https://www.nike.com/about"] nike nike w_link) = Ok links ->
       List.length links <= 2.
Proof.
  apply (extract_relevant_links_bound (mk_env get_ok gen_plain) 0
           [lit "https://www.nike.com/about"] nike nike w_link).
  intros l _. apply Permutation_sym, Permutation_rev.
Defined.

(** X14.  The in-place change made by [extract_text] does not disturb the
    link filter that runs after it on the same document: when no hyperlink
    sits inside a [script] or [style] element, the filter returns after
    [extract_text] what it would have returned before. *)
Theorem link_filter_after_extract_text
    (E : environment) (soup : soup_ref) (js_links : list str)
    (base_url url : str) (w : world) :
  soup < List.length (heap w) ->
  anchor_hrefs (decompose_all SCRIPT_STYLE (nth soup (heap w) []))
  = anchor_hrefs (nth soup (heap w) []) ->
  exists t w',
    extract_text soup w = (Ok t, w')
    /\ fst (extract_relevant_links E soup js_links base_url url w')
       = fst (extract_relevant_links E soup js_links base_url url w).
Proof.
  intros Hvalid Hplain. rewrite Store.extract_text_run by exact Hvalid.
  do 2 eexists. split; [reflexivity|].
  apply LinkFacts.links_depend_on_hrefs. cbn [heap].
  rewrite Store.nth_set_nth by exact Hvalid.
  unfold normalized. now rewrite SoupFacts.anchor_hrefs_insert.
Qed.

Lemma link_filter_after_extract_text_witness :
  exists t w',
    extract_text 0 w_link = (Ok t, w')
    /\ fst (extract_relevant_links (mk_env get_ok gen_plain) 0 [] nike nike w')
       = Ok [lit "https://www.nike.com/about"].
Proof.
  destruct (link_filter_after_extract_text (mk_env get_ok gen_plain) 0 []
              nike nike w_link) as (t & w' & Hrun & Hsame).
  - simpl. lia.
  - reflexivity.
  - exists t, w'. split; [exact Hrun|]. rewrite Hsame. reflexivity.
Defined.

(** ** More on the orchestrator *)

Module RunFacts.

Section WithEnvironment.

Variable E : environment.





Lemma output_data_app (l1 l2 : list str) (w : world) :
  output_data E (l1 ++ l2) w
  = match output_data E l1 w with
    | (Ok r1, w1) =>
        match output_data E l2 w1 with
        | (Ok r2, w2) => (Ok (r1 ++ r2), w2)
        | (Raise e, w2) => (Raise e, w2)
        end
    | (Raise e, w1) => (Raise e, w1)
    end.
Proof.
  revert w. induction l1 as [|url rest IH]; intros w.
  - cbn [app output_data ret].
    destruct (output_data E l2 w) as [[r2 | e] w2]; reflexivity.
  - cbn [app output_data]. unfold bind, ret.
    destruct (get_company_information E url w) as [[s | e] wa]; [|reflexivity].
    rewrite IH.
    destruct (output_data E rest wa) as [[r1 | e] w1]; [|reflexivity].
    destruct (output_data E l2 w1) as [[r2 | e] w2]; reflexivity.
Qed.

End WithEnvironment.

End RunFacts.





(** X18.  When [get_company_information] returns, what it returns is the
    answer to the last model call of the run, and the placeholder when the
    run made none. *)
Theorem result_is_last_answer
    (E : environment) (url : str) (w : world) (final : str) (w' : world) :
  get_company_information E url w = (Ok final, w') ->
  exists evs,
    trace w' = trace w ++ evs
    /\ final = last (answers evs) (lit "Failed to fetch content.").
Proof.
  destruct (fetched E (requests_get_oracle E (trace w) url))
    as [[[resp d]|] | e] eqn:Hf.
  - set (o := requests_get_oracle E (trace w) url) in *.
    set (t := flattened d).
    set (w1 := page_world w url o d).
    set (o2 := generate_content_oracle E (trace w1) (make_prompt t)).
    assert (Htr2 : trace (asked E w1 t)
                   = trace w ++ [EvGet url o; EvGenerate (make_prompt t) o2]).
    { unfold asked, log, w1, page_world. cbn [trace]. now rewrite <- app_assoc. }
    rewrite (Runs.gci_fetched E url w resp d Hf). fold o t w1.
    destruct (contains MARKER (answer_in E w1 t)).
    + unfold bind. rewrite Runs.extract_relevant_links_run.
      destruct (map_result _ _) as [joined | e]; [|discriminate].
      set (links := set_order E _). intros Hrun.
      destruct (Loop.loop_outcome_holds E links t (answer_in E w1 t) (asked E w1 t))
        as (evs & Htr & _ & _ & _ & Hend).
      rewrite Hrun in Htr, Hend. cbn [fst snd] in Htr, Hend.
      destruct Hend as (Hlast & _).
      exists (EvGet url o :: EvGenerate (make_prompt t) o2 :: evs). split.
      { rewrite Htr, Htr2. now rewrite <- app_assoc. }
      change (answers (EvGet url o :: EvGenerate (make_prompt t) o2 :: evs))
        with (answer_in E w1 t :: answers evs).
      now rewrite Loop.last_cons.
    + intros H. injection H as <- <-.
      exists [EvGet url o; EvGenerate (make_prompt t) o2].
      split; [exact Htr2 | reflexivity].
  - rewrite (Runs.gci_failed E url w Hf). intros H. injection H as <- <-.
    exists [EvGet url (requests_get_oracle E (trace w) url)].
    split; reflexivity.
  - rewrite (Runs.gci_escapes E url w e Hf). discriminate.
Qed.

Lemma result_is_last_answer_witness :
  exists evs,
    trace (snd (get_company_information (mk_env get_ok gen_marker) nike w0)) = evs
    /\ lit "HQ: Information Not Available"
       = last (answers evs) (lit "Failed to fetch content.")
    /\ List.length (answers evs) = 2.
Proof.
  destruct (result_is_last_answer (mk_env get_ok gen_marker) nike w0
              (lit "HQ: Information Not Available")
              (snd (get_company_information (mk_env get_ok gen_marker) nike w0)))
    as (evs & Htr & Hlast).
  - vm_compute. reflexivity.
  - exists evs. cbn [w0 trace app] in Htr. split; [exact Htr|].
    split; [exact Hlast|]. rewrite <- Htr. reflexivity.
Defined.

(** X19.  [save_to_csv] never raises, also when the write fails: it makes
    one attempt to write exactly the rows it was given under the name it
    was given, and changes nothing else. *)
Theorem save_to_csv_never_raises
    (E : environment) (data : list row) (filename : str) (w : world) :
  exists w',
    save_to_csv E data filename w = (Ok tt, w')
    /\ heap w' = heap w
    /\ trace w' = trace w ++ [EvToCsv filename data (to_csv_oracle E (trace w) data)].
Proof.
  rewrite Orchestrator.save_to_csv_run. eexists. repeat split.
Qed.

(** X20.  Every text in the rows that [process_urls] builds is clean: it
    holds no newline and no double quote, and cleaning it again changes
    nothing. *)
Theorem rows_are_clean
    (E : environment) (urls : list str) (w : world) (data : list row) (w' : world) :
  output_data E urls w = (Ok data, w') ->
  Forall (fun r =>
            clean_text (Extracted_Information r) = Extracted_Information r
            /\ ~ In NL (Extracted_Information r)
            /\ ~ In DQUOTE (Extracted_Information r)) data.
Proof.
  intros Hrun.
  destruct (Orchestrator.output_data_rows E urls w data w' Hrun) as [_ Hall].
  rewrite Forall_forall in *. intros r Hr.
  destruct (Hall r Hr) as [info ->].
  pose proof (CleanText.clean_text_tidy info) as Ht.
  split; [apply CleanFacts.clean_text_fixed|].
  split; [exact (CleanText.tidy_no_newline _ _ Ht)
         | exact (CleanText.tidy_no_dquote _ _ Ht)].
Qed.

Lemma rows_are_clean_witness :
  Forall (fun r =>
            clean_text (Extracted_Information r) = Extracted_Information r
            /\ ~ In NL (Extracted_Information r)
            /\ ~ In DQUOTE (Extracted_Information r))
    [ {| Company_URL := apple;
         Extracted_Information := lit "Founded 1999, HQ: Nowhere" |} ].
Proof.
  apply (rows_are_clean (mk_env get_ok gen_plain) [apple] w0 _
           (snd (output_data (mk_env get_ok gen_plain) [apple] w0))).
  vm_compute. reflexivity.
Defined.

(** X21.  Processing a list of URLs in one batch is processing a first
    part and then, in the world this leaves behind, the rest: the rows are
    those of the two parts one after the other, and an exception that ends
    either part ends the batch. *)
Theorem output_data_in_parts
    (E : environment) (l1 l2 : list str) (w : world) :
  output_data E (l1 ++ l2) w
  = match output_data E l1 w with
    | (Ok r1, w1) =>
        match output_data E l2 w1 with
        | (Ok r2, w2) => (Ok (r1 ++ r2), w2)
        | (Raise e, w2) => (Raise e, w2)
        end
    | (Raise e, w1) => (Raise e, w1)
    end.
Proof. apply RunFacts.output_data_app. Qed.
